(** * Survival assistant: orchestration core of [app.py]

  A shallow embedding of the parts of [src/app.py] that carry the
  behavioural contract of the assistant:

  - [ConfigManager.validate_config] and its local [deep_update];
  - [AudioManager.listen], [AudioManager._tts_worker], [AudioManager.shutdown];
  - [AIInterface.generate_response] and [AIInterface._clean_response];
  - [EnhancedSurvivalAssistant._main_loop], [handle_wake_word_activation],
    [process_command] and [manual_voice_input];
  - the parsing of the wake words in [ModernAssistantGUI.show_settings].

  Conventions of the embedding.
  - A Python [str] is a [string]; the text handled here is ASCII (the
    recogniser's vocabulary and the markup removed from completions), so
    [str.lower] and [str.strip] are given on the ASCII range.
  - [None] is [None]; a Python truth test on an optional string is [truthy].
  - Wall-clock readings of [time.time()] are rationals (seconds).
  - What the outside world answers (recogniser results, clock readings, HTTP
    replies) is an explicit input of the model; what the code does to the
    outside world (speech, transcript lines, spawned workers, pauses) is an
    explicit list of events. *)

From Stdlib Require Import Bool Arith List Lia.
From Stdlib Require Import Ascii String.
From Stdlib Require Import ZArith QArith.
Import ListNotations.

Set Warnings "-register-all".

Close Scope Q_scope.
Open Scope list_scope.
Open Scope string_scope.
Open Scope nat_scope.

(** ** Python strings *)

Module PyStr.

(** [s[n:]] *)
Fixpoint drop (n : nat) (s : string) : string :=
  match n, s with
  | O, _ => s
  | S _, EmptyString => EmptyString
  | S k, String _ s' => drop k s'
  end.

(** [s.startswith(p)] *)
Fixpoint startswith (p s : string) : bool :=
  match p, s with
  | EmptyString, _ => true
  | String _ _, EmptyString => false
  | String a p', String b s' => Ascii.eqb a b && startswith p' s'
  end.

(** [needle in hay] *)
Fixpoint contains (needle hay : string) : bool :=
  startswith needle hay ||
  match hay with
  | EmptyString => false
  | String _ hay' => contains needle hay'
  end.

(** [any(w in s for w in ws)] *)
Definition any_in (ws : list string) (s : string) : bool :=
  existsb (fun w => contains w s) ws.

(** [c in s] for a single character. *)
Fixpoint has_char (c : ascii) (s : string) : bool :=
  match s with
  | EmptyString => false
  | String a s' => Ascii.eqb c a || has_char c s'
  end.

Definition lower_char (c : ascii) : ascii :=
  let n := nat_of_ascii c in
  if (65 <=? n) && (n <=? 90) then ascii_of_nat (n + 32) else c.

(** [s.lower()] *)
Fixpoint lower (s : string) : string :=
  match s with
  | EmptyString => EmptyString
  | String c s' => String (lower_char c) (lower s')
  end.

(** [c.isspace()] on the ASCII range: space, [\t \n \v \f \r] and the
    four separators [\x1c]..[\x1f]. *)
Definition is_space (c : ascii) : bool :=
  let n := nat_of_ascii c in
  (n =? 32) || ((9 <=? n) && (n <=? 13)) || ((28 <=? n) && (n <=? 31)).

(** [s.lstrip()] *)
Fixpoint lstrip (s : string) : string :=
  match s with
  | EmptyString => EmptyString
  | String c s' => if is_space c then lstrip s' else s
  end.

(** [s.rstrip()] *)
Fixpoint rstrip (s : string) : string :=
  match s with
  | EmptyString => EmptyString
  | String c s' =>
      match rstrip s' with
      | EmptyString => if is_space c then EmptyString else String c EmptyString
      | r => String c r
      end
  end.

(** [s.strip()] *)
Definition strip (s : string) : string := rstrip (lstrip s).

(** Left-to-right scan of [str.replace] for a non-empty [old]: [skip]
    counts the characters of the current match still to be passed over. *)
Fixpoint replace_from (old new : string) (skip : nat) (s : string) : string :=
  match s with
  | EmptyString => EmptyString
  | String c s' =>
      match skip with
      | S k => replace_from old new k s'
      | O =>
          if startswith old s
          then new ++ replace_from old new (String.length old - 1) s'
          else String c (replace_from old new 0 s')
      end
  end.

(** With an empty [old], Python puts [new] before every character and at
    the end. *)
Fixpoint intersperse (new s : string) : string :=
  match s with
  | EmptyString => new
  | String c s' => new ++ String c (intersperse new s')
  end.

(** [s.replace(old, new)] *)
Definition replace (old new s : string) : string :=
  match old with
  | EmptyString => intersperse new s
  | String _ _ => replace_from old new 0 s
  end.

(** [c * n] *)
Fixpoint rep (c : ascii) (n : nat) : string :=
  match n with
  | O => EmptyString
  | S n' => String c (rep c n')
  end.

(** Number of copies of [c] that [s] starts with. *)
Fixpoint lead (c : ascii) (s : string) : nat :=
  match s with
  | EmptyString => 0
  | String a s' => if Ascii.eqb c a then S (lead c s') else 0
  end.

(** Length of the longest run of [c] in [s]. *)
Fixpoint maxrun (c : ascii) (s : string) : nat :=
  match s with
  | EmptyString => 0
  | String _ s' => Nat.max (lead c s) (maxrun c s')
  end.

(** [s] does not begin with white space. *)
Definition starts_unspaced (s : string) : bool :=
  match s with EmptyString => true | String c _ => negb (is_space c) end.

(** Python truth value of a string. *)
Definition nonempty (s : string) : bool :=
  match s with EmptyString => false | String _ _ => true end.

(** Python truth value of an [Optional[str]]. *)
Definition truthy (o : option string) : bool :=
  match o with None => false | Some s => nonempty s end.

End PyStr.


(** ** Configuration: [ConfigManager] *)

Module Config.

(** A parsed JSON document, as [json.load] returns it.  A Python [dict]
    keeps its keys in insertion order and never holds a key twice; it is an
    association list here, and [wf] states the absence of duplicates. *)
Inductive json : Type :=
| JNull
| JBool (b : bool)
| JNum (q : Q)
| JStr (s : string)
| JArr (elems : list json)
| JObj (items : list (string * json)).

Definition dict : Type := list (string * json).

(** [isinstance(v, dict)] *)
Definition is_dict (v : json) : bool :=
  match v with JObj _ => true | _ => false end.

(** [d.get(key)] *)
Fixpoint lookup (key : string) (d : dict) : option json :=
  match d with
  | [] => None
  | (k, v) :: d' => if String.eqb key k then Some v else lookup key d'
  end.

(** [d[key] = value]: an existing key keeps its place, a new key goes last. *)
Fixpoint set (key : string) (value : json) (d : dict) : dict :=
  match d with
  | [] => [(key, value)]
  | (k, v) :: d' =>
      if String.eqb key k then (k, value) :: d' else (k, v) :: set key value d'
  end.

(** The local function [deep_update(base, update)] of [validate_config],
    returning the contents of [base] after the call.  The argument [update]
    is the [dict] being iterated, given as the JSON value holding it so that
    the recursion into a nested value is structural. *)
Fixpoint deep_update_json (base : dict) (update : json) {struct update} : dict :=
  match update with
  | JObj items =>
      (fix each (items : list (string * json)) (base : dict) {struct items} : dict :=
         match items with
         | [] => base
         | (key, value) :: rest =>
             each rest
               match lookup key base, value with
               | Some (JObj nested), JObj _ =>
                   set key (JObj (deep_update_json nested value)) base
               | _, _ => set key value base
               end
         end) items base
  | _ => base
  end.

Definition deep_update (base update : dict) : dict :=
  deep_update_json base (JObj update).

(** [validate_config(config)] against the module-level [DEFAULT_CONFIG].
    [update.items()] raises when [config] is not a [dict]: the result is
    [None] then, and [load_config] falls back to the defaults.  The source
    updates in place a shallow copy of the defaults, so that the nested
    objects of [DEFAULT_CONFIG] itself are updated too; the value returned
    by one call, which is what is given here, does not depend on it. *)
Definition validate_config (DEFAULT_CONFIG : dict) (config : json) : option dict :=
  match config with
  | JObj update => Some (deep_update DEFAULT_CONFIG update)
  | _ => None
  end.

(** [load_config], from the parsed file content ([None]: the file could
    not be read or parsed). *)
Definition load_config (DEFAULT_CONFIG : dict) (file : option json) : dict :=
  match file with
  | Some config =>
      match validate_config DEFAULT_CONFIG config with
      | Some validated => validated
      | None => DEFAULT_CONFIG
      end
  | None => DEFAULT_CONFIG
  end.

(** The body of the [for] loop of [deep_update], for one item. *)
Definition update_item (base : dict) (key : string) (value : json) : dict :=
  match lookup key base, value with
  | Some (JObj nested), JObj update => set key (JObj (deep_update nested update)) base
  | _, _ => set key value base
  end.

(** What the item [(key, value)] leaves under [key], [old] being what
    [base] held there. *)
Definition merged (old : option json) (value : json) : json :=
  match old, value with
  | Some (JObj nested), JObj update => JObj (deep_update nested update)
  | _, _ => value
  end.

(** No key occurs twice. *)
Fixpoint distinct (keys : list string) : bool :=
  match keys with
  | [] => true
  | k :: rest => negb (existsb (String.eqb k) rest) && distinct rest
  end.

(** Keys are pairwise distinct in every object of the document, as they
    are in every value that [json.load] returns. *)
Fixpoint wf (v : json) : bool :=
  match v with
  | JObj items =>
      distinct (map fst items) &&
      (fix all (items : list (string * json)) : bool :=
         match items with
         | [] => true
         | (_, value) :: rest => wf value && all rest
         end) items
  | JArr elems =>
      (fix all (elems : list json) : bool :=
         match elems with
         | [] => true
         | value :: rest => wf value && all rest
         end) elems
  | _ => true
  end.

(** [doc[k1][k2]...[kn]], [None] where a key is missing or the value
    reached is not an object. *)
Fixpoint at_path (path : list string) (doc : json) : option json :=
  match path with
  | [] => Some doc
  | key :: path' =>
      match doc with
      | JObj items =>
          match lookup key items with
          | Some v => at_path path' v
          | None => None
          end
      | _ => None
      end
  end.

(** The defaults of the source, [DEFAULT_CONFIG]. *)
Definition DEFAULT_CONFIG : dict :=
  [ ("model_name", JStr "Android_Artisan/Gemma3-Android:latest");
    ("ollama_url", JStr "http://localhost:11434/api/generate");
    ("wake_words",
      JArr [JStr "survival assistant"; JStr "emergency help";
            JStr "assistant"; JStr "help me"]);
    ("vosk_model_path", JStr "./vosk-model-small-en-us-0.15");
    ("audio_settings",
      JObj [ ("sample_rate", JNum (16000 # 1)); ("chunk_size", JNum (8000 # 1));
             ("channels", JNum (1 # 1)); ("timeout_default", JNum (8 # 1));
             ("timeout_emergency", JNum (15 # 1)) ]);
    ("tts_settings", JObj [ ("rate", JNum (190 # 1)); ("volume", JNum (9 # 10)) ]);
    ("ui_settings",
      JObj [ ("auto_scroll", JBool true); ("max_chat_lines", JNum (1000 # 1));
             ("theme", JStr "dark") ]) ].

(** A user file that overrides one audio setting and adds a key. *)
Definition sample_user_config : dict :=
  [ ("audio_settings", JObj [ ("timeout_default", JNum (12 # 1)) ]);
    ("language", JStr "en") ].

End Config.

(** ** Endpointed listener: [AudioManager.listen] *)

Module Audio.

(** [a < b] on clock readings. *)
Definition Qltb (a b : Q) : bool := negb (Qle_bool b a).

(** What one pass through the loop body meets.  Every exception of the
    body is raised before the pass has assigned anything ([stream.read],
    the recogniser, [json.loads], [.strip()] on a non-string) and is caught
    by [except Exception: continue]; the feedback callback returns
    normally.
    - [Final text now]: [AcceptWaveform] is true, [text] is
      [result.get("text", "")] and [now] is the clock read by the
      minimum-duration test (read only when the stripped text is non-empty).
    - [Partial partial now_mark now_check]: [AcceptWaveform] is false,
      [partial] is [partial_result.get("partial", "")], [now_mark] is the
      clock read by [silence_start = time.time()] and [now_check] the clock
      read by the silence test, each read only if that statement runs. *)
Inductive frame : Type :=
| Raises
| Final (text : string) (now : Q)
| Partial (partial : string) (now_mark now_check : Q).

(** One evaluation of the loop condition, reading the clock at [at_loop],
    and the frame heard if the body runs. *)
Record pass : Type := { at_loop : Q; heard : frame }.

(** The local variables of [listen]; [shown] collects the arguments of the
    calls to [callback]. *)
Record locals : Type := {
  result_text : string;
  last_partial : string;
  silence_start : option Q;
  shown : list string
}.

Definition initial : locals :=
  {| result_text := ""; last_partial := ""; silence_start := None; shown := [] |}.

Definition min_speech_duration : Q := 1 # 2.

(** How the call ended. *)
Inductive exit : Type := NoStream | ByFinal | BySilence | ByTimeout.

(** Python truth value of [silence_start]: [None] and [0.0] are false. *)
Definition silence_running (st : locals) : option Q :=
  match silence_start st with
  | Some t => if Qeq_bool t 0 then None else Some t
  | None => None
  end.

(** The statements under [if current_partial != last_partial:]. *)
Definition note_partial (callback : bool) (current : string) (now_mark : Q)
    (st : locals) : locals :=
  if String.eqb current (last_partial st) then st
  else
    let st1 :=
      {| result_text := result_text st;
         last_partial := current;
         silence_start := silence_start st;
         shown := if callback && PyStr.nonempty current
                  then (shown st ++ [current])%list else shown st |} in
    if PyStr.nonempty current then
      {| result_text := result_text st1; last_partial := last_partial st1;
         silence_start := None; shown := shown st1 |}
    else
      match silence_start st1 with
      | None =>
          if PyStr.nonempty (last_partial st1) then
            {| result_text := result_text st1; last_partial := last_partial st1;
               silence_start := Some now_mark; shown := shown st1 |}
          else st1
      | Some _ => st1
      end.

(** The [while] loop.  The passes are consumed one per evaluation of the
    loop condition; [None] means that they ran out while the loop was still
    running. *)
Fixpoint listen_loop (start timeout : Q) (callback : bool) (st : locals)
    (passes : list pass) : option (exit * option string * locals) :=
  match passes with
  | [] => None
  | p :: rest =>
      if Qltb (at_loop p - start) timeout then
        match heard p with
        | Raises => listen_loop start timeout callback st rest
        | Final text now =>
            let st1 :=
              {| result_text := PyStr.strip text; last_partial := last_partial st;
                 silence_start := silence_start st; shown := shown st |} in
            if PyStr.nonempty (result_text st1)
               && Qltb min_speech_duration (now - start)
            then Some (ByFinal, Some (PyStr.lower (result_text st1)), st1)
            else listen_loop start timeout callback st1 rest
        | Partial current now_mark now_check =>
            let st1 := note_partial callback current now_mark st in
            match silence_running st1 with
            | Some since =>
                if Qltb 2 (now_check - since) && PyStr.nonempty (last_partial st1)
                then Some (BySilence, Some (PyStr.lower (last_partial st1)), st1)
                else listen_loop start timeout callback st1 rest
            | None => listen_loop start timeout callback st1 rest
            end
        end
      else
        Some (ByTimeout,
              if PyStr.nonempty (result_text st)
              then Some (PyStr.lower (result_text st)) else None,
              st)
  end.

(** [listen(timeout, callback)]: [stream_active] is the test of the first
    line, [start] the clock read into [start_time]. *)
Definition listen (stream_active : bool) (start timeout : Q) (callback : bool)
    (passes : list pass) : option (exit * option string * locals) :=
  if negb stream_active then Some (NoStream, None, initial)
  else listen_loop start timeout callback initial passes.

(** The value returned, when the call returns. *)
Definition returned (r : option (exit * option string * locals)) : option (option string) :=
  match r with Some (_, v, _) => Some v | None => None end.

(** Passes spaced like the frames of the source: [stream.read(4000)] at
    16 kHz delivers a frame every quarter of a second.  The [k]-th pass
    starts at [k/4] s and reads the clock at that same instant. *)
Definition quarter (k : nat) : Q := Z.of_nat k # 4.

Definition partial_at (k : nat) (text : string) : pass :=
  {| at_loop := quarter k; heard := Partial text (quarter k) (quarter k) |}.

Definition final_at (k : nat) (text : string) : pass :=
  {| at_loop := quarter k; heard := Final text (quarter k) |}.

(** [n] passes from the [k]-th on, all hearing silence. *)
Fixpoint silence_from (k n : nat) : list pass :=
  match n with
  | O => []
  | S n' => partial_at k "" :: silence_from (S k) n'
  end.

(** [n] passes from the [k]-th on, all hearing the same partial [text]. *)
Fixpoint speech_from (text : string) (k n : nat) : list pass :=
  match n with
  | O => []
  | S n' => partial_at k text :: speech_from text (S k) n'
  end.

End Audio.

(** ** Completion client: [AIInterface] *)

Module AI.

Definition LF : ascii := ascii_of_nat 10.
Definition newline : string := String LF "".

(** The first statement of [_clean_response]: the markers go. *)
Definition strip_markup (text : string) : string :=
  PyStr.replace "```" ""
    (PyStr.replace "#" ""
      (PyStr.replace "*" ""
        (PyStr.replace "**" "" text))).

(** Its second statement: paragraph breaks, then line breaks. *)
Definition join_lines (text : string) : string :=
  PyStr.replace newline ". "
    (PyStr.replace (newline ++ newline) ". " text).

(** Its third statement: doubled periods, then doubled spaces. *)
Definition collapse_periods (text : string) : string := PyStr.replace ".." "." text.
Definition collapse_spaces (text : string) : string := PyStr.replace "  " " " text.

(** [_clean_response(text)] *)
Definition clean_response (text : string) : string :=
  PyStr.strip
    (collapse_spaces (collapse_periods (join_lines (strip_markup text)))).

(** The sample of the specification, with its two kinds of line break. *)
Definition sample_markdown : string :=
  "**Step 1**" ++ newline ++ newline ++ "- Boil water" ++ newline ++ "- Filter it".

(** The body of an HTTP 200 reply, as far as the code reads it:
    [BadBody] when [response.json()] or the [.strip()] of the field raises,
    else the [response] field ([None] when the object has none). *)
Inductive body : Type :=
| BadBody
| Body (response : option string).

(** What one [session.post] meets. *)
Inductive reply : Type :=
| Timeout                               (* [requests.exceptions.Timeout] *)
| RequestError                          (* any other exception of the call *)
| Response (status_code : Z) (b : body).

(** What the call does to the outside. *)
Inductive event : Type :=
| Post (prompt : string) (emergency : bool)
| Pause (seconds : nat)                 (* [time.sleep] *)
| LogEmpty
| LogNotFound
| LogStatus (status_code : Z)
| LogTimeout (attempt : nat)
| LogError.

Definition max_retries : nat := 3.

(** Sampling options of the request. *)
Definition temperature (emergency : bool) : Q := if emergency then 1 # 10 else 3 # 10.
Definition num_predict (emergency : bool) : nat := if emergency then 300 else 500.

(** Prefix the events of one attempt to what the rest of the loop does. *)
Definition and_then (evs : list event) (k : option string * list event)
  : option string * list event :=
  (fst k, (evs ++ snd k)%list).

(** The [for attempt in range(max_retries)] loop over the attempts still
    to be made; [replies attempt] is what the post of that attempt meets. *)
Fixpoint attempts (prompt : string) (emergency : bool) (replies : nat -> reply)
    (todo : list nat) : option string * list event :=
  match todo with
  | [] => (None, [])
  | attempt :: rest =>
      match replies attempt with
      | Response status_code b =>
          if (status_code =? 200)%Z then
            match b with
            | Body response =>
                let result :=
                  PyStr.strip (match response with Some r => r | None => "" end) in
                if PyStr.nonempty result
                then (Some (clean_response result), [Post prompt emergency])
                else and_then [Post prompt emergency; LogEmpty]
                       (attempts prompt emergency replies rest)
            | BadBody => (None, [Post prompt emergency; LogError])
            end
          else if (status_code =? 404)%Z then
            (None, [Post prompt emergency; LogNotFound])
          else
            and_then [Post prompt emergency; LogStatus status_code]
              (attempts prompt emergency replies rest)
      | Timeout =>
          and_then
            ([Post prompt emergency; LogTimeout (attempt + 1)]
             ++ (if attempt <? max_retries - 1 then [Pause 1] else []))%list
            (attempts prompt emergency replies rest)
      | RequestError => (None, [Post prompt emergency; LogError])
      end
  end.

(** [generate_response(prompt, emergency)] *)
Definition generate_response (prompt : string) (emergency : bool)
    (replies : nat -> reply) : option string * list event :=
  attempts prompt emergency replies (seq 0 max_retries).

Definition is_post (e : event) : bool :=
  match e with Post _ _ => true | _ => false end.

Definition is_pause (e : event) : bool :=
  match e with Pause _ => true | _ => false end.

(** Number of requests sent, and of pauses taken, by a call. *)
Definition posts (evs : list event) : nat := List.length (filter is_post evs).
Definition pauses (evs : list event) : nat := List.length (filter is_pause evs).

(** A reply after which the loop goes on to its next attempt: a timeout,
    or a status that is neither 200 nor 404. *)
Definition retried (r : reply) : Prop :=
  match r with
  | Timeout => True
  | Response status_code _ => status_code <> 200%Z /\ status_code <> 404%Z
  | RequestError => False
  end.

End AI.

(** ** Command router: [EnhancedSurvivalAssistant], one thread at a time *)

Module Router.

(** The branch of the [if]/[elif] chain of [_main_loop] that an utterance
    takes. *)
Inductive intent : Type := WakeWord | Emergency | Question | Exit | Unclassified.

Definition emergency_words : list string := ["emergency"; "urgent"; "help"; "danger"].
Definition question_words : list string := ["how"; "what"; "when"; "where"; "why"].
Definition exit_words : list string := ["exit"; "quit"; "stop"; "shutdown"].

(** The part of the configuration that the router reads. *)
Record settings : Type := {
  configured_wake_words : list string;
  timeout_default : Q;
  timeout_emergency : Q
}.

(** [self.wake_words], set by [__init__]. *)
Definition wake_words (config : settings) : list string :=
  map PyStr.lower (configured_wake_words config).

(** The tests of the chain, in the order of the source. *)
Definition classify (wake_words : list string) (command : string) : intent :=
  if PyStr.any_in wake_words command then WakeWord
  else if PyStr.any_in emergency_words command then Emergency
  else if PyStr.any_in question_words command then Question
  else if PyStr.any_in exit_words command then Exit
  else Unclassified.

(** The flags of the assistant: [is_processing], [is_listening] and
    [_stop_event]. *)
Record flags : Type := {
  is_processing : bool;
  is_listening : bool;
  stop_event : bool
}.

Definition idle : flags :=
  {| is_processing := false; is_listening := false; stop_event := false |}.

(** What the router does to the outside.  [StartWorker command emergency]
    is the start of the thread that runs [process_in_thread] for that
    command; [Shown text] is the transcript line of the user's words. *)
Inductive event : Type :=
| Speak (text : string)
| Shown (text : string)
| Listening (on : bool)
| Status (label : string)
| Listen (timeout : Q)
| StartWorker (command : string) (emergency : bool)
| Completion (request : list AI.event)
| Sleep (seconds : Q).

Definition acknowledgement : string :=
  "I'm ready to help with your emergency. Please describe the situation.".
Definition retry_prompt : string :=
  "I didn't catch that. Please try again or use the emergency voice button.".
Definition service_trouble : string :=
  "I'm having trouble accessing the AI service. Please check the connection.".
Definition call_services : string :=
  " In a real emergency, please call emergency services immediately.".
Definition farewell : string :=
  "Shutting down survival assistant. Stay safe.".

(** [process_command(command, emergency)], up to the start of the worker. *)
Definition process_command (command : string) (emergency : bool) (st : flags)
  : flags * list event :=
  if is_processing st then (st, [])
  else ({| is_processing := true; is_listening := is_listening st;
           stop_event := stop_event st |},
        [StartWorker command emergency]).

(** The worker [process_in_thread] of [process_command]. *)
Definition process_in_thread (command : string) (emergency : bool)
    (replies : nat -> AI.reply) (st : flags) : flags * list event :=
  let (response, request) := AI.generate_response command emergency replies in
  ({| is_processing := false; is_listening := is_listening st;
      stop_event := stop_event st |},
   [Status "Consulting AI"; Completion request;
    Speak (if PyStr.truthy response
           then match response with Some r => r | None => "" end
           else if emergency then service_trouble ++ call_services
                else service_trouble);
    Status "Ready"]).

(** [handle_wake_word_activation()]; [follow_up] is what its call of
    [listen] returns, and [st] holds the flags as they stand once it has
    returned, which is when [process_command] reads them. *)
Definition handle_wake_word_activation (config : settings)
    (follow_up : option string) (st : flags) : flags * list event :=
  let before := [Speak acknowledgement; Listen (timeout_emergency config)] in
  match follow_up with
  | Some said =>
      if PyStr.nonempty said then
        let (st', evs) := process_command said true st in
        (st', (before ++ Shown said :: evs)%list)
      else (st, (before ++ [Speak retry_prompt])%list)
  | None => (st, (before ++ [Speak retry_prompt])%list)
  end.

(** [shutdown()] as far as it gets on the thread of [_main_loop], where
    the chain calls it: the stop event is set and the farewell spoken;
    [self.main_thread] is then the running thread itself, alive, and a
    thread cannot join itself: [join] raises [RuntimeError], and
    [audio_manager.shutdown()] is not reached. *)
Definition shutdown_on_loop_thread (st : flags) : flags * list event :=
  ({| is_processing := is_processing st; is_listening := is_listening st;
      stop_event := true |},
   [Speak farewell]).

(** The chain of [_main_loop] for a non-empty [command]; the boolean tells
    whether the pass ends without [break].  In the exit branch the
    exception of [shutdown()] skips the [break]: the handler of the loop
    counts one error, the counter having been reset when the command was
    heard, and sleeps one second. *)
Definition dispatch (config : settings) (command : string)
    (follow_up : option string) (st : flags) : flags * list event * bool :=
  match classify (wake_words config) command with
  | WakeWord => (handle_wake_word_activation config follow_up st, true)
  | Emergency => (process_command command true st, true)
  | Question => (process_command command false st, true)
  | Exit =>
      let (st', evs) := shutdown_on_loop_thread st in
      (st', (evs ++ [Sleep (1 # 1)])%list, true)
  | Unclassified => (st, [], true)
  end.

(** One pass of the [while] loop of [_main_loop], the calls to the outside
    returning normally; [command] is what [listen] returns in it. *)
Definition main_loop_pass (config : settings) (command follow_up : option string)
    (st : flags) : flags * list event * bool :=
  if is_processing st then (st, [Sleep (1 # 10)], true)
  else
    let heard := [Listening true; Listen (5 # 1); Listening false] in
    let st1 := {| is_processing := is_processing st; is_listening := false;
                  stop_event := stop_event st |} in
    match command with
    | Some said =>
        if PyStr.nonempty said then
          let '(st', evs, go_on) := dispatch config said follow_up st1 in
          (st', (heard ++ Shown said :: evs)%list, go_on)
        else (st1, heard, true)
    | None => (st1, heard, true)
    end.

(** The loop of [_main_loop] over its passes, each with what its calls
    of [listen] return: it ends at its test once the stop event is set, or
    after a pass that ends by [break]. *)
Fixpoint main_loop (config : settings)
    (heard : list (option string * option string)) (st : flags)
  : flags * list event :=
  match heard with
  | [] => (st, [])
  | (command, follow_up) :: rest =>
      if stop_event st then (st, [])
      else
        let '(st', evs, go_on) := main_loop_pass config command follow_up st in
        if go_on then
          let (st'', evs') := main_loop config rest st' in
          (st'', (evs ++ evs')%list)
        else (st', evs)
  end.

(** Events that answer the user: speech, or a completion being asked for. *)
Definition is_response (e : event) : bool :=
  match e with
  | Speak _ | StartWorker _ _ | Completion _ => true
  | _ => false
  end.

(** The settings of [DEFAULT_CONFIG]. *)
Definition default_settings : settings :=
  {| configured_wake_words :=
       ["survival assistant"; "emergency help"; "assistant"; "help me"];
     timeout_default := 8 # 1;
     timeout_emergency := 15 # 1 |}.

End Router.

(** ** The assistant's threads, interleaved *)

Module Threads.

Import Router.

(** Where the orchestration thread stands in [_main_loop]. *)
Inductive main_pc : Type :=
| MTop                                  (* the loop test and the [is_processing] guard *)
| MSetListening                         (* [self.is_listening = True] *)
| MListening                            (* inside [listen] *)
| MClearListening (command : option string)   (* [self.is_listening = False] *)
| MDispatch (command : option string)   (* [if command:] and the chain *)
| MFollowUp                             (* inside the [listen] of the wake-word follow-up *)
| MStopped.

(** Where a worker started by [manual_voice_input] stands in
    [capture_input]. *)
Inductive capture_pc : Type :=
| CSetListening (emergency : bool)      (* [self.is_listening = True] *)
| CListening (emergency : bool)         (* inside [listen] *)
| CClearListening (emergency : bool) (command : option string)
| CProcess (emergency : bool) (command : option string)
| CDone.

(** The shared flags, the orchestration thread, the capture workers in
    the order of their start, and the number of command workers
    ([process_in_thread]) that have not yet reached their [finally]. *)
Record world : Type := {
  shared : flags;
  main : main_pc;
  captures : list capture_pc;
  workers : nat
}.

Definition boot : world :=
  {| shared := idle; main := MTop; captures := []; workers := 0 |}.

(** One move of the scheduler.  A move of a thread inside [listen] carries
    what [listen] returns. *)
Inductive move : Type :=
| Main (heard : option string)
| Click (emergency : bool)              (* the GUI thread runs [manual_voice_input] *)
| Capture (i : nat) (heard : option string)
| WorkerEnds.                           (* the [finally] of a command worker *)

Definition with_listening (b : bool) (st : flags) : flags :=
  {| is_processing := is_processing st; is_listening := b;
     stop_event := stop_event st |}.

Definition with_processing (b : bool) (st : flags) : flags :=
  {| is_processing := b; is_listening := is_listening st;
     stop_event := stop_event st |}.

(** Workers started by a call of [process_command]. *)
Definition started (evs : list event) : nat :=
  List.length (filter (fun e => match e with StartWorker _ _ => true | _ => false end) evs).

Fixpoint put_nth {A : Type} (i : nat) (x : A) (l : list A) : list A :=
  match l, i with
  | [], _ => []
  | _ :: l', O => x :: l'
  | y :: l', S i' => y :: put_nth i' x l'
  end.

(** A move of the orchestration thread. *)
Definition main_move (config : settings) (heard : option string) (w : world)
  : option world :=
  let st := shared w in
  match main w with
  | MTop =>
      Some {| shared := st;
              main := if stop_event st then MStopped
                      else if is_processing st then MTop else MSetListening;
              captures := captures w; workers := workers w |}
  | MSetListening =>
      Some {| shared := with_listening true st; main := MListening;
              captures := captures w; workers := workers w |}
  | MListening =>
      Some {| shared := st; main := MClearListening heard;
              captures := captures w; workers := workers w |}
  | MClearListening command =>
      Some {| shared := with_listening false st; main := MDispatch command;
              captures := captures w; workers := workers w |}
  | MDispatch command =>
      match command with
      | Some said =>
          if PyStr.nonempty said then
            match classify (wake_words config) said with
            | WakeWord =>
                Some {| shared := st; main := MFollowUp;
                        captures := captures w; workers := workers w |}
            | Emergency =>
                let (st', evs) := process_command said true st in
                Some {| shared := st'; main := MTop; captures := captures w;
                        workers := workers w + started evs |}
            | Question =>
                let (st', evs) := process_command said false st in
                Some {| shared := st'; main := MTop; captures := captures w;
                        workers := workers w + started evs |}
            | Exit =>
                Some {| shared := {| is_processing := is_processing st;
                                     is_listening := is_listening st;
                                     stop_event := true |};
                        main := MStopped;
                        captures := captures w; workers := workers w |}
            | Unclassified =>
                Some {| shared := st; main := MTop;
                        captures := captures w; workers := workers w |}
            end
          else Some {| shared := st; main := MTop;
                       captures := captures w; workers := workers w |}
      | None => Some {| shared := st; main := MTop;
                        captures := captures w; workers := workers w |}
      end
  | MFollowUp =>
      let (st', evs) := handle_wake_word_activation config heard st in
      Some {| shared := st'; main := MTop; captures := captures w;
              workers := workers w + started evs |}
  | MStopped => None
  end.

(** [manual_voice_input(emergency)] on the GUI thread: the busy test and
    the start of a capture worker. *)
Definition click (emergency : bool) (w : world) : option world :=
  let st := shared w in
  if is_processing st || is_listening st then Some w
  else Some {| shared := st; main := main w;
               captures := (captures w ++ [CSetListening emergency])%list;
               workers := workers w |}.

(** A move of the [i]-th capture worker. *)
Definition capture_move (i : nat) (heard : option string) (w : world)
  : option world :=
  let st := shared w in
  match nth_error (captures w) i with
  | Some (CSetListening emergency) =>
      Some {| shared := with_listening true st; main := main w;
              captures := put_nth i (CListening emergency) (captures w);
              workers := workers w |}
  | Some (CListening emergency) =>
      Some {| shared := st; main := main w;
              captures := put_nth i (CClearListening emergency heard) (captures w);
              workers := workers w |}
  | Some (CClearListening emergency command) =>
      Some {| shared := with_listening false st; main := main w;
              captures := put_nth i (CProcess emergency command) (captures w);
              workers := workers w |}
  | Some (CProcess emergency command) =>
      match command with
      | Some said =>
          if PyStr.nonempty said then
            let (st', evs) := process_command said emergency st in
            Some {| shared := st'; main := main w;
                    captures := put_nth i CDone (captures w);
                    workers := workers w + started evs |}
          else Some {| shared := st; main := main w;
                       captures := put_nth i CDone (captures w);
                       workers := workers w |}
      | None => Some {| shared := st; main := main w;
                        captures := put_nth i CDone (captures w);
                        workers := workers w |}
      end
  | Some CDone => None
  | None => None
  end.

(** The [finally] of a command worker: [self.is_processing = False]. *)
Definition worker_ends (w : world) : option world :=
  match workers w with
  | O => None
  | S n => Some {| shared := with_processing false (shared w); main := main w;
                   captures := captures w; workers := n |}
  end.

(** One step; [None] when the move is not possible in [w].  Each step is
    one statement of its thread, except that the two statements of
    [process_command] ([if self.is_processing: return] and
    [self.is_processing = True]) and the two tests at the head of the loop
    are taken together: every run of this system is a run of the threads
    of the source. *)
Definition step (config : settings) (m : move) (w : world) : option world :=
  match m with
  | Main heard => main_move config heard w
  | Click emergency => click emergency w
  | Capture i heard => capture_move i heard w
  | WorkerEnds => worker_ends w
  end.

(** A schedule, run from [w]. *)
Fixpoint run (config : settings) (schedule : list move) (w : world) : option world :=
  match schedule with
  | [] => Some w
  | m :: rest =>
      match step config m w with
      | Some w' => run config rest w'
      | None => None
      end
  end.

(** The state that the invariant forbids. *)
Definition both_flags (w : world) : bool :=
  is_listening (shared w) && is_processing (shared w).

(** Moves other than a manual trigger. *)
Definition no_click (m : move) : bool :=
  match m with Click _ => false | _ => true end.

(** What holds of the loop and its command workers when no capture worker
    exists: the loop is between its guard and the end of its [listen] only
    while no command is in flight, and [is_listening] is set only there. *)
Definition loop_alone (w : world) : Prop :=
  captures w = [] /\
  match main w with
  | MSetListening => is_processing (shared w) = false /\ is_listening (shared w) = false
  | MListening | MClearListening _ => is_processing (shared w) = false
  | _ => is_listening (shared w) = false
  end.

End Threads.

(** ** Speech output queue: [_tts_worker], [speak] and [shutdown] of [AudioManager] *)

Module Speech.

(** How the worker left its loop. *)
Inductive way_out : Type :=
| SawStopEvent                          (* the [while] test found the event set *)
| TookSentinel.                         (* [text is None]: [break] *)

(** Where the worker stands in [_tts_worker]. *)
Inductive worker_pc : Type :=
| AtLoopTest                            (* [while not self._tts_stop_event.is_set()] *)
| InGet                                 (* inside [self.tts_queue.get(timeout=1)] *)
| Speaking (text : string)              (* inside [say] / [runAndWait] *)
| Exited (how : way_out).

(** Where the thread that called [AudioManager.shutdown] stands. *)
Inductive shutdown_pc : Type :=
| NotCalled
| AtPut                                 (* the event is set; next the [is_alive] test and the [put] *)
| AtJoin                                (* inside [self.tts_thread.join(timeout=2)] *)
| AtCleanup                             (* [self.cleanup_audio()] *)
| Returned.

(** [tts_queue] holds texts and the sentinel [None], oldest first. *)
Record world : Type := {
  tts_queue : list (option string);
  tts_stop_event : bool;
  worker : worker_pc;
  closing : shutdown_pc;
  spoken : list string
}.

(** After [setup_text_to_speech]: the worker has been started. *)
Definition started : world :=
  {| tts_queue := []; tts_stop_event := false; worker := AtLoopTest;
     closing := NotCalled; spoken := [] |}.

Inductive move : Type :=
| Worker                                (* the worker runs to its next statement *)
| Enqueue (text : string)               (* some thread calls [speak(text)] *)
| Shut.                                 (* the closing thread runs to its next statement *)

(** [self.tts_thread.is_alive()] *)
Definition is_alive (w : world) : bool :=
  match worker w with Exited _ => false | _ => true end.

(** A move of the worker.  An empty queue makes [get] raise [queue.Empty]
    after its timeout, and the loop goes on; an exception of the engine is
    logged, and the loop goes on. *)
Definition worker_move (w : world) : option world :=
  match worker w with
  | AtLoopTest =>
      Some {| tts_queue := tts_queue w; tts_stop_event := tts_stop_event w;
              worker := if tts_stop_event w then Exited SawStopEvent else InGet;
              closing := closing w; spoken := spoken w |}
  | InGet =>
      match tts_queue w with
      | [] =>
          Some {| tts_queue := []; tts_stop_event := tts_stop_event w;
                  worker := AtLoopTest; closing := closing w; spoken := spoken w |}
      | None :: rest =>
          Some {| tts_queue := rest; tts_stop_event := tts_stop_event w;
                  worker := Exited TookSentinel; closing := closing w;
                  spoken := spoken w |}
      | Some text :: rest =>
          Some {| tts_queue := rest; tts_stop_event := tts_stop_event w;
                  worker := Speaking text; closing := closing w;
                  spoken := spoken w |}
      end
  | Speaking text =>
      Some {| tts_queue := tts_queue w; tts_stop_event := tts_stop_event w;
              worker := AtLoopTest; closing := closing w;
              spoken := (spoken w ++ [text])%list |}
  | Exited _ => None
  end.

(** [speak(text)], the engine being set up. *)
Definition enqueue (text : string) (w : world) : option world :=
  Some {| tts_queue := if tts_stop_event w then tts_queue w
                       else (tts_queue w ++ [Some text])%list;
          tts_stop_event := tts_stop_event w; worker := worker w;
          closing := closing w; spoken := spoken w |}.

(** A move of the closing thread.  [join(timeout=2)] returns when the
    worker has ended or when the two seconds are over, whichever comes
    first: its return needs no move of the worker. *)
Definition shut_move (w : world) : option world :=
  match closing w with
  | NotCalled =>
      Some {| tts_queue := tts_queue w; tts_stop_event := true;
              worker := worker w; closing := AtPut; spoken := spoken w |}
  | AtPut =>
      if is_alive w then
        Some {| tts_queue := (tts_queue w ++ [None])%list;
                tts_stop_event := tts_stop_event w;
                worker := worker w; closing := AtJoin; spoken := spoken w |}
      else
        Some {| tts_queue := tts_queue w; tts_stop_event := tts_stop_event w;
                worker := worker w; closing := AtCleanup; spoken := spoken w |}
  | AtJoin =>
      Some {| tts_queue := tts_queue w; tts_stop_event := tts_stop_event w;
              worker := worker w; closing := AtCleanup; spoken := spoken w |}
  | AtCleanup =>
      Some {| tts_queue := tts_queue w; tts_stop_event := tts_stop_event w;
              worker := worker w; closing := Returned; spoken := spoken w |}
  | Returned => None
  end.

Definition step (m : move) (w : world) : option world :=
  match m with
  | Worker => worker_move w
  | Enqueue text => enqueue text w
  | Shut => shut_move w
  end.

Fixpoint run (schedule : list move) (w : world) : option world :=
  match schedule with
  | [] => Some w
  | m :: rest =>
      match step m w with
      | Some w' => run rest w'
      | None => None
      end
  end.

(** The sentinel is still waiting in the queue. *)
Definition sentinel_queued (w : world) : bool :=
  existsb (fun item => match item with None => true | Some _ => false end)
          (tts_queue w).

Definition farewell : string := "Shutting down survival assistant. Stay safe.".

(** While the stop event is not set, no sentinel is queued, the worker is
    running and [shutdown] has not been called. *)
Definition before_shutdown (w : world) : Prop :=
  tts_stop_event w = false ->
  sentinel_queued w = false /\ is_alive w = true /\ closing w = NotCalled.

End Speech.

(** ** The wording of the specification *)

Module Spec.

(** [w] occurs in [u]. *)
Definition occurs (w u : string) : Prop := exists a b, u = a ++ w ++ b.

(** [u] contains one of the words [ws]. *)
Definition mentions (ws : list string) (u : string) : Prop :=
  exists w, In w ws /\ occurs w u.

(** Section 4.2, "first match wins". *)
Inductive classified (wake_words : list string) (u : string) : Router.intent -> Prop :=
| wake_word :
    mentions wake_words u ->
    classified wake_words u Router.WakeWord
| emergency :
    ~ mentions wake_words u ->
    mentions ["emergency"; "urgent"; "help"; "danger"] u ->
    classified wake_words u Router.Emergency
| question :
    ~ mentions wake_words u ->
    ~ mentions ["emergency"; "urgent"; "help"; "danger"] u ->
    mentions ["how"; "what"; "when"; "where"; "why"] u ->
    classified wake_words u Router.Question
| exit :
    ~ mentions wake_words u ->
    ~ mentions ["emergency"; "urgent"; "help"; "danger"] u ->
    ~ mentions ["how"; "what"; "when"; "where"; "why"] u ->
    mentions ["exit"; "quit"; "stop"; "shutdown"] u ->
    classified wake_words u Router.Exit
| unclassified :
    ~ mentions wake_words u ->
    ~ mentions ["emergency"; "urgent"; "help"; "danger"] u ->
    ~ mentions ["how"; "what"; "when"; "where"; "why"] u ->
    ~ mentions ["exit"; "quit"; "stop"; "shutdown"] u ->
    classified wake_words u Router.Unclassified.

(** Section 4.1, "whatever non-empty final/partial text was last
    captured, else none": the last non-empty text among the frames heard,
    lower-cased. *)
Fixpoint last_captured (acc : option string) (passes : list Audio.pass) : option string :=
  match passes with
  | [] => acc
  | p :: rest =>
      last_captured
        match Audio.heard p with
        | Audio.Final text _ =>
            if PyStr.nonempty (PyStr.strip text)
            then Some (PyStr.lower (PyStr.strip text)) else acc
        | Audio.Partial text _ _ =>
            if PyStr.nonempty text then Some (PyStr.lower text) else acc
        | Audio.Raises => acc
        end
        rest
  end.

End Spec.

(** The stripped text of the last final result among [passes], [""] when
    there is none. *)
Definition keep_final (acc : string) (p : Audio.pass) : string :=
  match Audio.heard p with
  | Audio.Final text _ => PyStr.strip text
  | _ => acc
  end.

Definition last_final_text (passes : list Audio.pass) : string :=
  fold_left keep_final passes "".

(** A text as a return value: lower-cased, or [None] when it is empty. *)
Definition at_timeout (text : string) : option string :=
  if PyStr.nonempty text then Some (PyStr.lower text) else None.

(** The loop condition holds at the pass [p]. *)
Definition in_time (start timeout : Q) (p : Audio.pass) : bool :=
  Audio.Qltb (Audio.at_loop p - start) timeout.

(** ** Further notions used in the statements *)

(** The frame of the pass could be read and decoded. *)
Definition frame_read (p : Audio.pass) : bool :=
  match Audio.heard p with Audio.Raises => false | _ => true end.

(** No character of [s] is an upper-case letter. *)
Fixpoint no_capitals (s : string) : bool :=
  match s with
  | EmptyString => true
  | String c s' =>
      negb ((65 <=? nat_of_ascii c) && (nat_of_ascii c <=? 90)) && no_capitals s'
  end.

(** The stripped text of a final result is kept stripped, and the silence
    timer stays unset. *)
Definition settled (st : Audio.locals) : Prop :=
  Audio.silence_start st = None /\
  PyStr.strip (Audio.result_text st) = Audio.result_text st.

(** What the callback has been given so far: non-empty texts only, and
    nothing where there is no callback. *)
Definition fed (callback : bool) (st : Audio.locals) : Prop :=
  Forall (fun text => PyStr.nonempty text = true) (Audio.shown st) /\
  (callback = false -> Audio.shown st = []).

(** Number of values in a document, itself included. *)
Fixpoint size (v : Config.json) : nat :=
  match v with
  | Config.JObj items =>
      S ((fix sum (items : list (string * Config.json)) : nat :=
            match items with
            | [] => 0
            | (_, value) :: rest => size value + sum rest
            end) items)
  | Config.JArr elems =>
      S ((fix sum (elems : list Config.json) : nat :=
            match elems with
            | [] => 0
            | value :: rest => size value + sum rest
            end) elems)
  | _ => 1
  end.

(** A text fit for the speech engine: no [*], no [#], no code fence and no
    line break. *)
Definition speakable (text : string) : bool :=
  negb (PyStr.has_char "*" text) && negb (PyStr.has_char "#" text)
  && negb (PyStr.contains "```" text) && negb (PyStr.has_char AI.LF text).

(** The stripped, lower-cased text of a final result among [passes]. *)
Definition from_final (passes : list Audio.pass) (s : string) : Prop :=
  exists p text now,
    In p passes /\ Audio.heard p = Audio.Final text now /\
    s = PyStr.lower (PyStr.strip text).

Module Outcome.

(** The [response] field as [generate_response] reads it:
    [response.json().get("response", "").strip()]. *)
Definition field_text (response : option string) : string :=
  PyStr.strip (match response with Some r => r | None => "" end).

(** The text that a reply makes the call return, if it does: a 200 whose
    stripped field is not empty. *)
Definition answer (r : AI.reply) : option string :=
  match r with
  | AI.Response status_code (AI.Body response) =>
      if (status_code =? 200)%Z && PyStr.nonempty (field_text response)
      then Some (AI.clean_response (field_text response))
      else None
  | _ => None
  end.

(** A reply after which the loop goes on: a timeout, a status other than
    200 and 404, or a 200 whose field is missing, empty or blank. *)
Definition soft (r : AI.reply) : bool :=
  match r with
  | AI.Timeout => true
  | AI.RequestError => false
  | AI.Response status_code b =>
      if (status_code =? 200)%Z then
        match b with
        | AI.Body response => negb (PyStr.nonempty (field_text response))
        | AI.BadBody => false
        end
      else negb (status_code =? 404)%Z
  end.

(** The first answer among the attempts [todo], all replies before it
    being soft. *)
Fixpoint first_answer (replies : nat -> AI.reply) (todo : list nat) : option string :=
  match todo with
  | [] => None
  | attempt :: rest =>
      match answer (replies attempt) with
      | Some text => Some text
      | None => if soft (replies attempt) then first_answer replies rest else None
      end
  end.

(** Every pause of the events lasts one second. *)
Definition unit_pauses (evs : list AI.event) : bool :=
  forallb (fun e => match e with AI.Pause n => n =? 1 | _ => true end) evs.

End Outcome.

Module Priority.

(** The place of an intent in the chain of [_main_loop]: a later test
    never overrides an earlier one. *)
Definition rank (i : Router.intent) : nat :=
  match i with
  | Router.WakeWord => 4
  | Router.Emergency => 3
  | Router.Question => 2
  | Router.Exit => 1
  | Router.Unclassified => 0
  end.

End Priority.

Module Ending.

(** The moves of the worker in a schedule. *)
Definition worker_moves (schedule : list Speech.move) : nat :=
  List.length
    (filter (fun m => match m with Speech.Worker => true | _ => false end)
       schedule).

(** How many steps the worker can still make at most, once the stop event
    is set: from inside [get] it may take a text, utter it and come to
    its loop test; from a synthesis it comes to the loop test; there it
    leaves. *)
Definition steps_left (w : Speech.world) : nat :=
  match Speech.worker w with
  | Speech.InGet => 3
  | Speech.Speaking _ => 2
  | Speech.AtLoopTest => 1
  | Speech.Exited _ => 0
  end.

(** The sentinels waiting in a queue. *)
Fixpoint sentinels (queue : list (option string)) : nat :=
  match queue with
  | [] => 0
  | None :: rest => S (sentinels rest)
  | Some _ :: rest => sentinels rest
  end.

(** The sentinel that the worker has taken. *)
Definition taken (w : Speech.world) : nat :=
  match Speech.worker w with
  | Speech.Exited Speech.TookSentinel => 1
  | _ => 0
  end.

(** The sentinels that a move queues: one, when the closing thread is at
    its [put] and finds the worker alive. *)
Definition put_by (m : Speech.move) (w : Speech.world) : nat :=
  match m, Speech.closing w with
  | Speech.Shut, Speech.AtPut => if Speech.is_alive w then 1 else 0
  | _, _ => 0
  end.

(** The sentinels queued in the course of a schedule run from [w]. *)
Fixpoint puts (schedule : list Speech.move) (w : Speech.world) : nat :=
  match schedule with
  | [] => 0
  | m :: rest =>
      match Speech.step m w with
      | Some w' => put_by m w + puts rest w'
      | None => 0
      end
  end.

(** [shutdown] queues one sentinel at most, when it goes from its [put]
    to its [join]; the worker takes it or it waits in the queue. *)
Definition one_sentinel (w : Speech.world) : Prop :=
  match Speech.closing w with
  | Speech.NotCalled | Speech.AtPut =>
      sentinels (Speech.tts_queue w) + taken w = 0
  | Speech.AtJoin => sentinels (Speech.tts_queue w) + taken w = 1
  | Speech.AtCleanup | Speech.Returned =>
      sentinels (Speech.tts_queue w) + taken w <= 1
  end.

End Ending.

Module Backlog.






(** How many more texts the worker can start once the stop event is set. *)
Definition budget (w : Speech.world) : nat :=
  match Speech.worker w with
  | Speech.InGet | Speech.Speaking _ => 1
  | _ => 0
  end.

End Backlog.

(** ** Wake words of the settings dialog: [save_settings] *)

Module WakeWords.

(** [s.split(sep)] for a separator of one character. *)
Fixpoint split (sep : ascii) (s : string) : list string :=
  match s with
  | EmptyString => [EmptyString]
  | String c s' =>
      if Ascii.eqb c sep then EmptyString :: split sep s'
      else
        match split sep s' with
        | first :: others => String c first :: others
        | [] => [String c EmptyString]
        end
  end.

(** [sep.join(ws)] *)
Fixpoint join (sep : string) (ws : list string) : string :=
  match ws with
  | [] => EmptyString
  | w :: rest =>
      match rest with
      | [] => w
      | _ :: _ => w ++ sep ++ join sep rest
      end
  end.

(** The list comprehension of [save_settings]:
    [[line.strip() for line in content.split("\n") if line.strip()]]. *)
Definition parse (content : string) : list string :=
  map PyStr.strip
    (filter (fun line => PyStr.nonempty (PyStr.strip line))
       (split AI.LF content)).

(** What the dialog puts into its text field: ["\n".join(wake_words)]. *)
Definition display (wake_words : list string) : string :=
  join AI.newline wake_words.

(** A wake word that the dialog can hold on a line of its own. *)
Definition plain (w : string) : bool :=
  PyStr.nonempty w && String.eqb (PyStr.strip w) w && negb (PyStr.has_char AI.LF w).

End WakeWords.

(** * Properties *)

(** ** Strings *)

Section StringFacts.

Import PyStr.

Lemma startswith_app (p t : string) : startswith p (p ++ t) = true.
Proof.
  induction p as [|a p IH]; simpl; [reflexivity|].
  now rewrite Ascii.eqb_refl, IH.
Qed.

Lemma startswith_spec (p s : string) :
  startswith p s = true <-> exists t, s = p ++ t.
Proof.
  split.
  - revert s; induction p as [|a p IH]; intros s H.
    + now exists s.
    + destruct s as [|b s]; simpl in H; [discriminate|].
      apply andb_true_iff in H as [Hab Hps].
      apply Ascii.eqb_eq in Hab; subst b.
      destruct (IH _ Hps) as [t ->]. now exists t.
  - intros [t ->]. apply startswith_app.
Qed.

Lemma contains_unfold (p s : string) :
  contains p s =
  startswith p s || match s with EmptyString => false | String _ s' => contains p s' end.
Proof. destruct s; reflexivity. Qed.

Lemma append_assoc (a b c : string) : (a ++ b) ++ c = a ++ (b ++ c).
Proof. induction a as [|x a IH]; simpl; [reflexivity | now rewrite IH]. Qed.

Lemma append_empty_r (a : string) : a ++ "" = a.
Proof. induction a as [|x a IH]; simpl; [reflexivity | now rewrite IH]. Qed.

(** [contains] is Python's substring test. *)
Lemma contains_spec (p s : string) :
  contains p s = true <-> exists a b, s = a ++ p ++ b.
Proof.
  split.
  - induction s as [|c s IH]; rewrite contains_unfold; intros H;
      apply orb_true_iff in H as [H|H]; try discriminate.
    + apply startswith_spec in H as [t Ht]. now exists "", t.
    + apply startswith_spec in H as [t Ht]. now exists "", t.
    + destruct (IH H) as (a & b & ->). now exists (String c a), b.
  - intros (a & b & ->). induction a as [|c a IH].
    + change ("" ++ p ++ b) with (p ++ b).
      rewrite contains_unfold, startswith_app. reflexivity.
    + change (String c a ++ p ++ b) with (String c (a ++ p ++ b)).
      rewrite contains_unfold, IH. apply orb_true_r.
Qed.

Lemma contains_inside (p a t b : string) :
  contains p t = true -> contains p (a ++ t ++ b) = true.
Proof.
  intros H. apply contains_spec in H as (x & y & ->).
  apply contains_spec. exists (a ++ x), (y ++ b).
  now rewrite !append_assoc.
Qed.

Lemma any_in_spec (ws : list string) (s : string) :
  any_in ws s = true <-> exists w, In w ws /\ exists a b, s = a ++ w ++ b.
Proof.
  unfold any_in. rewrite existsb_exists.
  split; intros (w & Hw & H); exists w; split; auto; now apply contains_spec.
Qed.

Lemma has_char_app (c : ascii) (a b : string) :
  has_char c (a ++ b) = has_char c a || has_char c b.
Proof.
  induction a as [|x a IH]; simpl; [reflexivity|].
  now rewrite IH, orb_assoc.
Qed.

Lemma replace_from_skip (old new : string) (k : nat) (s : string) :
  replace_from old new k s = replace_from old new 0 (drop k s).
Proof.
  revert k; induction s as [|c s IH]; intros [|k]; try reflexivity.
  simpl. apply IH.
Qed.

(** The three equations of [replace] for a non-empty [old]. *)
Lemma replace_nil (a : ascii) (o new : string) :
  replace (String a o) new "" = "".
Proof. reflexivity. Qed.

Lemma replace_match (a : ascii) (o new : string) (c : ascii) (s : string) :
  startswith (String a o) (String c s) = true ->
  replace (String a o) new (String c s)
  = new ++ replace (String a o) new (drop (String.length o) s).
Proof.
  intros H. unfold replace. cbn [replace_from]. rewrite H.
  replace (String.length (String a o) - 1) with (String.length o)
    by (cbn [String.length]; lia).
  now rewrite replace_from_skip.
Qed.

Lemma replace_nomatch (a : ascii) (o new : string) (c : ascii) (s : string) :
  startswith (String a o) (String c s) = false ->
  replace (String a o) new (String c s) = String c (replace (String a o) new s).
Proof.
  intros H. unfold replace. cbn [replace_from]. now rewrite H.
Qed.

Lemma drop_length_le (k : nat) (s : string) :
  String.length (drop k s) <= String.length s.
Proof.
  revert s; induction k as [|k IH]; intros [|c s]; simpl; auto.
Qed.

Lemma has_char_drop (c : ascii) (k : nat) (s : string) :
  has_char c s = false -> has_char c (drop k s) = false.
Proof.
  revert s; induction k as [|k IH]; intros [|a s]; simpl; auto.
  intros H. apply orb_false_iff in H as [_ H]. now apply IH.
Qed.

(** An induction principle that follows the scan of [replace]. *)
Lemma replace_ind (a : ascii) (o new : string) (P : string -> string -> Prop) :
  P "" "" ->
  (forall c s, startswith (String a o) (String c s) = true ->
     P (drop (String.length o) s) (replace (String a o) new (drop (String.length o) s)) ->
     P (String c s) (new ++ replace (String a o) new (drop (String.length o) s))) ->
  (forall c s, startswith (String a o) (String c s) = false ->
     P s (replace (String a o) new s) ->
     P (String c s) (String c (replace (String a o) new s))) ->
  forall s, P s (replace (String a o) new s).
Proof.
  intros Hnil Hmatch Hno s.
  remember (String.length s) as n eqn:Hn.
  assert (Hle : String.length s <= n) by lia. clear Hn.
  revert s Hle. induction n as [|n IH]; intros [|c s] Hle; simpl in Hle;
    try exact Hnil; try lia.
  destruct (startswith (String a o) (String c s)) eqn:E.
  - rewrite (replace_match _ _ _ _ _ E). apply Hmatch; auto.
    apply IH. pose proof (drop_length_le (String.length o) s). lia.
  - rewrite (replace_nomatch _ _ _ _ _ E). apply Hno; auto.
    apply IH. lia.
Qed.

(** A character that is neither in the text nor in [new] is not in the
    result. *)
Lemma replace_keeps_out (c : ascii) (old new s : string) :
  old <> "" ->
  has_char c new = false -> has_char c s = false ->
  has_char c (replace old new s) = false.
Proof.
  intros Hold Hnew. destruct old as [|a o]; [congruence|]. clear Hold.
  apply (replace_ind a o new
           (fun s r => has_char c s = false -> has_char c r = false)).
  - auto.
  - intros x t _ IH H. rewrite has_char_app, Hnew. simpl.
    apply IH. simpl in H. apply orb_false_iff in H as [_ H].
    now apply has_char_drop.
  - intros x t _ IH H. simpl in *. apply orb_false_iff in H as [-> H]. auto.
Qed.

(** Replacing every occurrence of one character removes it. *)
Lemma replace_char_gone (c : ascii) (new s : string) :
  has_char c new = false ->
  has_char c (replace (String c "") new s) = false.
Proof.
  intros Hnew.
  apply (replace_ind c "" new (fun _ r => has_char c r = false)).
  - reflexivity.
  - intros x t _ IH. rewrite has_char_app, Hnew. exact IH.
  - intros x t E IH. simpl in *. rewrite IH.
    destruct (Ascii.eqb c x); [discriminate | reflexivity].
Qed.

(** Runs of one character. *)
Lemma startswith_rep (c : ascii) (m : nat) (s : string) :
  startswith (rep c m) s = (m <=? lead c s).
Proof.
  revert s; induction m as [|m IH]; intros s; [reflexivity|].
  destruct s as [|a s]; simpl; [reflexivity|].
  destruct (Ascii.eqb c a); simpl; [apply IH | reflexivity].
Qed.

Lemma contains_rep (c : ascii) (m : nat) (s : string) :
  0 < m -> (contains (rep c m) s = false <-> maxrun c s < m).
Proof.
  intros Hm. induction s as [|a s IH].
  - destruct m; [lia|]. simpl. split; [lia | reflexivity].
  - rewrite contains_unfold, startswith_rep, orb_false_iff, IH.
    cbn [maxrun]. rewrite Nat.leb_gt. lia.
Qed.

Lemma lead_le_maxrun (c : ascii) (s : string) : lead c s <= maxrun c s.
Proof. destruct s; [simpl; lia | cbn [maxrun]; lia]. Qed.

Lemma maxrun_tail (c a : ascii) (s : string) : maxrun c s <= maxrun c (String a s).
Proof. cbn [maxrun]. lia. Qed.

Lemma maxrun_drop (c : ascii) (k : nat) (s : string) :
  maxrun c (drop k s) <= maxrun c s.
Proof.
  revert s; induction k as [|k IH]; intros [|a s]; try (simpl; lia).
  change (drop (S k) (String a s)) with (drop k s).
  pose proof (IH s). pose proof (maxrun_tail c a s). lia.
Qed.

Lemma lead_app_other (c : ascii) (a b : string) :
  a <> "" -> has_char c a = false -> lead c (a ++ b) = 0.
Proof.
  destruct a as [|x a]; [congruence|]. simpl. intros _ H.
  apply orb_false_iff in H as [-> _]. reflexivity.
Qed.

Lemma maxrun_app_other (c : ascii) (a b : string) :
  has_char c a = false -> maxrun c (a ++ b) = maxrun c b.
Proof.
  induction a as [|x a IH]; [reflexivity|]. intros H.
  pose proof H as H'. simpl in H'. apply orb_false_iff in H' as [Hx Ha].
  change (String x a ++ b) with (String x (a ++ b)). cbn [maxrun].
  rewrite (IH Ha). cbn [lead]. rewrite Hx. lia.
Qed.

(** A run shorter than the pattern [c * m] is copied as it is. *)
Lemma lead_replace_rep (c : ascii) (m : nat) (new s : string) :
  lead c s < S m -> lead c (replace (rep c (S m)) new s) = lead c s.
Proof.
  change (rep c (S m)) with (String c (rep c m)).
  apply (replace_ind c (rep c m) new
           (fun s r => lead c s < S m -> lead c r = lead c s)).
  - reflexivity.
  - intros x t E _ H. change (String c (rep c m)) with (rep c (S m)) in E.
    rewrite startswith_rep in E. apply Nat.leb_le in E. lia.
  - intros x t _ IH H. cbn [lead] in *.
    destruct (Ascii.eqb c x); [|reflexivity]. rewrite IH; lia.
Qed.

(** Nor is a run touched by a replacement that does not involve [c]. *)
Lemma lead_replace_other (c : ascii) (old new s : string) :
  old <> "" -> has_char c old = false ->
  new <> "" -> has_char c new = false ->
  lead c (replace old new s) = lead c s.
Proof.
  intros Hold Hco Hnew Hcn. destruct old as [|a o]; [congruence|]. clear Hold.
  apply (replace_ind a o new (fun s r => lead c r = lead c s)).
  - reflexivity.
  - intros x t E _. rewrite (lead_app_other c new _ Hnew Hcn).
    simpl in E. apply andb_true_iff in E as [E _].
    apply Ascii.eqb_eq in E; subst x.
    simpl in Hco. apply orb_false_iff in Hco as [Hca _].
    cbn [lead]. now rewrite Hca.
  - intros x t _ IH. cbn [lead]. now rewrite IH.
Qed.

Lemma maxrun_replace_other (c : ascii) (old new s : string) :
  old <> "" -> has_char c old = false ->
  new <> "" -> has_char c new = false ->
  maxrun c (replace old new s) <= maxrun c s.
Proof.
  intros Hold Hco Hnew Hcn.
  pose proof (fun s => lead_replace_other c old new s Hold Hco Hnew Hcn) as Hlead.
  destruct old as [|a o]; [congruence|]. clear Hold.
  apply (replace_ind a o new (fun s r => maxrun c r <= maxrun c s)).
  - auto.
  - intros x t _ IH. rewrite (maxrun_app_other c new _ Hcn).
    pose proof (maxrun_drop c (String.length o) t).
    pose proof (maxrun_tail c x t). lia.
  - intros x t _ IH. specialize (Hlead t). cbn [maxrun lead] in *.
    destruct (Ascii.eqb c x); lia.
Qed.

(** Deleting [c * (m+1)] everywhere leaves only runs of at most [m]. *)
Lemma maxrun_delete_rep (c : ascii) (m : nat) (s : string) :
  maxrun c (replace (rep c (S m)) "" s) <= m.
Proof.
  pose proof (fun s => lead_replace_rep c m "" s) as Hlead.
  change (rep c (S m)) with (String c (rep c m)) in *.
  apply (replace_ind c (rep c m) "" (fun s r => maxrun c r <= m)).
  - simpl; lia.
  - intros x t _ IH. exact IH.
  - intros x t E IH. change (String c (rep c m)) with (rep c (S m)) in E.
    rewrite startswith_rep in E. apply Nat.leb_gt in E.
    specialize (Hlead t). cbn [maxrun lead] in *.
    destruct (Ascii.eqb c x); [|lia]. rewrite Hlead; lia.
Qed.

(** Replacing [c c] by [c] leaves no [c c] when no run was longer than two. *)
Lemma maxrun_halve (c : ascii) (s : string) :
  maxrun c s < 3 -> maxrun c (replace (rep c 2) (rep c 1) s) < 2.
Proof.
  pose proof (fun s => lead_replace_rep c 1 (rep c 1) s) as Hlead.
  change (rep c 2) with (String c (rep c 1)) in *.
  apply (replace_ind c (rep c 1) (rep c 1)
           (fun s r => maxrun c s < 3 -> maxrun c r < 2)).
  - simpl; lia.
  - intros x t E IH H.
    change (String c (rep c 1)) with (rep c 2) in E.
    rewrite startswith_rep in E. apply Nat.leb_le in E.
    destruct t as [|y t]; [cbn [lead] in E; destruct (Ascii.eqb c x); simpl in E; lia|].
    change (drop (String.length (rep c 1)) (String y t)) with t in *.
    cbn [maxrun lead] in H, E.
    destruct (Ascii.eqb c x); [|lia]. destruct (Ascii.eqb c y); [|lia].
    assert (Ht : lead c t = 0) by lia.
    assert (Hm : maxrun c t < 3) by lia.
    specialize (IH Hm). specialize (Hlead t).
    change (rep c 1 ++ replace (String c (rep c 1)) (rep c 1) t)
      with (String c (replace (String c (rep c 1)) (rep c 1) t)).
    cbn [maxrun lead]. rewrite Ascii.eqb_refl, Hlead; lia.
  - intros x t E IH H.
    change (String c (rep c 1)) with (rep c 2) in E.
    rewrite startswith_rep in E. apply Nat.leb_gt in E.
    specialize (Hlead t). cbn [maxrun lead] in *.
    destruct (Ascii.eqb c x).
    + rewrite Hlead by lia. lia.
    + lia.
Qed.

(** [strip] keeps a piece of the text. *)
Lemma lstrip_suffix (s : string) : exists a, s = a ++ lstrip s.
Proof.
  induction s as [|c s [a IH]]; [now exists ""|].
  simpl. destruct (is_space c).
  - exists (String c a). simpl. now rewrite <- IH.
  - now exists "".
Qed.

Lemma rstrip_prefix (s : string) : exists b, s = rstrip s ++ b.
Proof.
  induction s as [|c s [b IH]]; [now exists ""|].
  simpl. destruct (rstrip s) as [|x r] eqn:E.
  - destruct (is_space c).
    + now exists (String c s).
    + exists s. reflexivity.
  - exists b. simpl. now rewrite IH at 1.
Qed.

Lemma strip_inside (s : string) : exists a b, s = a ++ strip s ++ b.
Proof.
  unfold strip. destruct (lstrip_suffix s) as [a Ha].
  destruct (rstrip_prefix (lstrip s)) as [b Hb].
  exists a, b. now rewrite <- Hb.
Qed.

Lemma contains_strip (p s : string) :
  contains p s = false -> contains p (strip s) = false.
Proof.
  intros H. destruct (contains p (strip s)) eqn:E; [|reflexivity].
  destruct (strip_inside s) as (a & b & Hs).
  rewrite Hs, (contains_inside p a (strip s) b E) in H. discriminate.
Qed.

Lemma has_char_strip (c : ascii) (s : string) :
  has_char c s = false -> has_char c (strip s) = false.
Proof.
  intros H. destruct (strip_inside s) as (a & b & Hs).
  rewrite Hs, !has_char_app in H.
  apply orb_false_iff in H as [_ H]. now apply orb_false_iff in H as [H _].
Qed.

Lemma lstrip_unspaced (s : string) : starts_unspaced (lstrip s) = true.
Proof.
  induction s as [|c s IH]; [reflexivity|].
  simpl. destruct (is_space c) eqn:E; [exact IH|]. simpl. now rewrite E.
Qed.

Lemma lstrip_fixed (s : string) : starts_unspaced s = true -> lstrip s = s.
Proof.
  destruct s as [|c s]; [reflexivity|]. simpl.
  now destruct (is_space c).
Qed.

Lemma rstrip_unspaced (s : string) :
  starts_unspaced s = true -> starts_unspaced (rstrip s) = true.
Proof.
  destruct s as [|c s]; [reflexivity|]. simpl. intros H.
  destruct (rstrip s); [destruct (is_space c) eqn:E |]; simpl;
    try rewrite E; auto.
Qed.

Lemma rstrip_idem (s : string) : rstrip (rstrip s) = rstrip s.
Proof.
  induction s as [|c s IH]; [reflexivity|].
  simpl. destruct (rstrip s) as [|x r] eqn:E.
  - destruct (is_space c) eqn:Ec; [reflexivity|]. simpl. now rewrite Ec.
  - cbn [rstrip]. cbn [rstrip] in IH. now rewrite IH.
Qed.

Lemma strip_idem (s : string) : strip (strip s) = strip s.
Proof.
  unfold strip.
  rewrite (lstrip_fixed (rstrip (lstrip s))).
  - apply rstrip_idem.
  - apply rstrip_unspaced, lstrip_unspaced.
Qed.

End StringFacts.

(** ** Response cleaning *)

Section CleanResponse.

Import PyStr AI.

Let star : ascii := "*"%char.
Let hash : ascii := "#"%char.
Let tick : ascii := "`"%char.
Let dot : ascii := "."%char.
Let blank : ascii := " "%char.

Ltac other_text := solve [discriminate | reflexivity].

Lemma clean_response_no_star (text : string) :
  has_char star (clean_response text) = false.
Proof.
  unfold clean_response, collapse_spaces, collapse_periods, join_lines, strip_markup.
  apply has_char_strip.
  do 6 (apply replace_keeps_out; [other_text | other_text |]).
  apply (replace_char_gone star). reflexivity.
Qed.

Lemma clean_response_no_hash (text : string) :
  has_char hash (clean_response text) = false.
Proof.
  unfold clean_response, collapse_spaces, collapse_periods, join_lines, strip_markup.
  apply has_char_strip.
  do 5 (apply replace_keeps_out; [other_text | other_text |]).
  apply (replace_char_gone hash). reflexivity.
Qed.

Lemma clean_response_no_newline (text : string) :
  has_char LF (clean_response text) = false.
Proof.
  unfold clean_response, collapse_spaces, collapse_periods, join_lines.
  apply has_char_strip.
  do 2 (apply replace_keeps_out; [other_text | other_text |]).
  apply (replace_char_gone LF). reflexivity.
Qed.

Lemma clean_response_no_fence (text : string) :
  contains "```" (clean_response text) = false.
Proof.
  unfold clean_response. apply contains_strip.
  apply (contains_rep tick 3); [lia|].
  unfold collapse_spaces, collapse_periods, join_lines, strip_markup.
  repeat match goal with
  | |- maxrun tick (replace "```" _ _) < _ => idtac
  | |- maxrun tick (replace ?o ?n ?s) < _ =>
      apply Nat.le_lt_trans with (maxrun tick s);
      [apply maxrun_replace_other; other_text |]
  end.
  pose proof (maxrun_delete_rep tick 2) as H. cbn [rep] in H.
  apply Nat.lt_succ_r, H.
Qed.

Lemma clean_response_periods (text : string) :
  contains "..." (join_lines (strip_markup text)) = false ->
  contains ".." (clean_response text) = false.
Proof.
  intros H. apply (contains_rep dot 3) in H; [|lia].
  unfold clean_response. apply contains_strip.
  apply (contains_rep dot 2); [lia|].
  unfold collapse_spaces.
  eapply Nat.le_lt_trans; [apply maxrun_replace_other; other_text |].
  apply (maxrun_halve dot), H.
Qed.

Lemma clean_response_spaces (text : string) :
  contains "   " (collapse_periods (join_lines (strip_markup text))) = false ->
  contains "  " (clean_response text) = false.
Proof.
  intros H. apply (contains_rep blank 3) in H; [|lia].
  unfold clean_response. apply contains_strip.
  apply (contains_rep blank 2); [lia|].
  apply (maxrun_halve blank), H.
Qed.

End CleanResponse.

(** C6, as the code has it.  For every text, the cleaned response holds no
    [*], no [#], no code fence and no line break, and has no white space at
    either end.  Doubled periods and doubled spaces are replaced in one
    pass from left to right: none is left when the text, as it stands
    before that pass, has no three of them in a row.  The sample of the
    specification becomes ["Step 1. - Boil water. - Filter it"]. *)
Theorem clean_response_cleans (text : string) :
  let out := AI.clean_response text in
  PyStr.has_char "*" out = false /\
  PyStr.has_char "#" out = false /\
  PyStr.contains "```" out = false /\
  PyStr.has_char AI.LF out = false /\
  PyStr.strip out = out /\
  (PyStr.contains "..." (AI.join_lines (AI.strip_markup text)) = false ->
   PyStr.contains ".." out = false) /\
  (PyStr.contains "   "
     (AI.collapse_periods (AI.join_lines (AI.strip_markup text))) = false ->
   PyStr.contains "  " out = false) /\
  AI.clean_response AI.sample_markdown = "Step 1. - Boil water. - Filter it".
Proof.
  cbv zeta. repeat split.
  - apply clean_response_no_star.
  - apply clean_response_no_hash.
  - apply clean_response_no_fence.
  - apply clean_response_no_newline.
  - apply strip_idem.
  - apply clean_response_periods.
  - apply clean_response_spaces.
Qed.

(** C6, as stated, fails: an ellipsis keeps a doubled period, and three
    spaces keep a doubled space. *)
Lemma clean_response_keeps_doubles :
  AI.clean_response "Wait..." = "Wait.." /\
  PyStr.contains ".." (AI.clean_response "Wait...") = true /\
  AI.clean_response "a   b" = "a  b" /\
  PyStr.contains "  " (AI.clean_response "a   b") = true.
Proof. repeat split. Qed.

(** ** Classification *)

Section Classification.

Import Router.

Lemma mentions_any_in (ws : list string) (u : string) :
  Spec.mentions ws u <-> PyStr.any_in ws u = true.
Proof. symmetry. apply any_in_spec. Qed.

Lemma not_mentions_any_in (ws : list string) (u : string) :
  ~ Spec.mentions ws u <-> PyStr.any_in ws u = false.
Proof.
  rewrite mentions_any_in. destruct (PyStr.any_in ws u); split; congruence.
Qed.

Lemma classify_classified (ww : list string) (u : string) :
  Spec.classified ww u (classify ww u).
Proof.
  unfold classify.
  destruct (PyStr.any_in ww u) eqn:Ew;
    [constructor; now apply mentions_any_in|].
  destruct (PyStr.any_in emergency_words u) eqn:Ee;
    [constructor; solve [now apply mentions_any_in | now apply not_mentions_any_in]|].
  destruct (PyStr.any_in question_words u) eqn:Eq;
    [constructor; solve [now apply mentions_any_in | now apply not_mentions_any_in]|].
  destruct (PyStr.any_in exit_words u) eqn:Ex;
    constructor; solve [now apply mentions_any_in | now apply not_mentions_any_in].
Qed.

Lemma classified_unique (ww : list string) (u : string) (i j : intent) :
  Spec.classified ww u i -> Spec.classified ww u j -> i = j.
Proof.
  intros Hi Hj. destruct Hi; destruct Hj; try reflexivity; contradiction.
Qed.

End Classification.

(** C3.  The chain of the orchestration loop gives every utterance the
    one intent that the first-match priority of the specification gives it:
    a wake phrase makes it [WakeWord]; failing that, one of emergency,
    urgent, help, danger makes it [Emergency]; failing that, one of how,
    what, when, where, why makes it [Question]; failing that, one of exit,
    quit, stop, shutdown makes it [Exit]; failing all, it is
    [Unclassified], and the loop then does nothing with it: the pass
    neither speaks nor asks for a completion. *)
Theorem classify_first_match (config : Router.settings) (u : string) :
  let ww := Router.wake_words config in
  Spec.classified ww u (Router.classify ww u) /\
  (forall i, Spec.classified ww u i -> i = Router.classify ww u) /\
  (Router.classify ww u = Router.Unclassified ->
   forall follow_up st,
     Router.dispatch config u follow_up st = (st, [], true) /\
     filter Router.is_response
       (snd (fst (Router.main_loop_pass config (Some u) follow_up st))) = []).
Proof.
  cbv zeta. split; [apply classify_classified | split].
  - intros i Hi. eapply classified_unique; [exact Hi | apply classify_classified].
  - intros H follow_up st. unfold Router.main_loop_pass, Router.dispatch.
    rewrite H. split; [reflexivity|].
    destruct (Router.is_processing st); [reflexivity|].
    destruct (PyStr.nonempty u); reflexivity.
Qed.

(** The samples of section 8. *)
Example classify_emergency_sample :
  Router.classify (Router.wake_words Router.default_settings)
    "emergency there is a fire" = Router.Emergency.
Proof. reflexivity. Qed.

Example classify_question_sample :
  Router.classify (Router.wake_words Router.default_settings)
    "how do I purify water" = Router.Question.
Proof. reflexivity. Qed.

Example classify_wake_word_wins :
  Router.classify ["assistant"] "assistant please stop" = Router.WakeWord /\
  Router.classify ["computer"] "assistant please stop" = Router.Exit.
Proof. split; reflexivity. Qed.

(** ** Retry policy of the completion client *)

Section Retry.

Import AI.

Variables (prompt : string) (emergency : bool).

Lemma posts_app (a b : list event) : posts (a ++ b)%list = posts a + posts b.
Proof. unfold posts. now rewrite filter_app, length_app. Qed.

Lemma pauses_app (a b : list event) : pauses (a ++ b)%list = pauses a + pauses b.
Proof. unfold pauses. now rewrite filter_app, length_app. Qed.

(** One retried attempt: one request, no result yet. *)
Lemma attempts_retried (replies : nat -> reply) (attempt : nat) (rest : list nat) :
  retried (replies attempt) ->
  exists evs,
    attempts prompt emergency replies (attempt :: rest)
    = and_then evs (attempts prompt emergency replies rest)
    /\ posts evs = 1.
Proof.
  intros H. cbn [attempts]. destruct (replies attempt) as [| |code b]; cbn in H.
  - eexists; split; [reflexivity|].
    rewrite posts_app. destruct (attempt <? max_retries - 1); reflexivity.
  - contradiction.
  - destruct H as [H200 H404].
    apply Z.eqb_neq in H200, H404. rewrite H200, H404.
    eexists; split; reflexivity.
Qed.

Lemma all_retried (replies : nat -> reply) (todo : list nat) :
  (forall k, In k todo -> retried (replies k)) ->
  fst (attempts prompt emergency replies todo) = None /\
  posts (snd (attempts prompt emergency replies todo)) = List.length todo.
Proof.
  induction todo as [|k todo IH]; intros H; [split; reflexivity|].
  destruct (attempts_retried replies k todo) as (evs & -> & Hp).
  { apply H. now left. }
  destruct IH as [IH1 IH2]. { intros j Hj. apply H. now right. }
  unfold and_then. cbn [fst snd]. rewrite posts_app, Hp, IH2. now split.
Qed.

End Retry.

(** C4.  When every attempt times out, the call sends three requests,
    pauses one second after the first and after the second and not after
    the third, and returns nothing.  When the first reply is a 404, it
    sends that one request and returns nothing.  When every reply is a
    timeout or a status other than 200 and 404, all three requests of the
    budget are sent and nothing is returned. *)
Theorem generate_response_retries (prompt : string) (emergency : bool)
    (replies : nat -> AI.reply) :
  ((forall k, k < 3 -> replies k = AI.Timeout) ->
   AI.generate_response prompt emergency replies
   = (None,
      [AI.Post prompt emergency; AI.LogTimeout 1; AI.Pause 1;
       AI.Post prompt emergency; AI.LogTimeout 2; AI.Pause 1;
       AI.Post prompt emergency; AI.LogTimeout 3]) /\
   AI.posts (snd (AI.generate_response prompt emergency replies)) = 3 /\
   AI.pauses (snd (AI.generate_response prompt emergency replies)) = 2) /\
  ((exists b, replies 0 = AI.Response 404 b) ->
   AI.generate_response prompt emergency replies
   = (None, [AI.Post prompt emergency; AI.LogNotFound]) /\
   AI.posts (snd (AI.generate_response prompt emergency replies)) = 1) /\
  ((forall k, k < 3 -> AI.retried (replies k)) ->
   fst (AI.generate_response prompt emergency replies) = None /\
   AI.posts (snd (AI.generate_response prompt emergency replies)) = 3).
Proof.
  unfold AI.generate_response. cbn [seq AI.max_retries].
  split; [|split].
  - intros H. cbn [AI.attempts].
    rewrite (H 0), (H 1), (H 2) by lia. repeat split.
  - intros [b H]. cbn [AI.attempts]. rewrite H. repeat split.
  - intros H. apply (all_retried prompt emergency replies [0; 1; 2]).
    intros k Hk. apply H. cbn in Hk. lia.
Qed.

(** The theorem at three scripts of replies: timeouts only, a 404 at
    once, and statuses 500, 503, 500. *)
Lemma generate_response_retries_witness :
  (AI.generate_response "fire" true (fun _ => AI.Timeout)
   = (None,
      [AI.Post "fire" true; AI.LogTimeout 1; AI.Pause 1;
       AI.Post "fire" true; AI.LogTimeout 2; AI.Pause 1;
       AI.Post "fire" true; AI.LogTimeout 3])) /\
  (AI.generate_response "fire" true (fun _ => AI.Response 404 AI.BadBody)
   = (None, [AI.Post "fire" true; AI.LogNotFound])) /\
  AI.posts (snd (AI.generate_response "fire" true
                   (fun k => AI.Response (if k =? 1 then 503 else 500) AI.BadBody))) = 3.
Proof.
  split; [|split].
  - apply (generate_response_retries "fire" true (fun _ => AI.Timeout)).
    intros k _. reflexivity.
  - apply (generate_response_retries "fire" true (fun _ => AI.Response 404 AI.BadBody)).
    exists AI.BadBody. reflexivity.
  - apply (generate_response_retries "fire" true
             (fun k => AI.Response (if k =? 1 then 503 else 500) AI.BadBody)).
    intros k _. cbn. destruct (k =? 1); split; discriminate.
Defined.

(** A 200 reply whose [response] field is missing, empty or blank is not
    returned: it is logged and the next attempt is made; three of them use
    up the budget. *)
Lemma generate_response_blank_retried (prompt : string) (emergency : bool)
    (replies : nat -> AI.reply) :
  (forall k, k < 3 -> exists field,
      replies k = AI.Response 200 (AI.Body field) /\
      PyStr.strip (match field with Some r => r | None => "" end) = "") ->
  AI.generate_response prompt emergency replies
  = (None,
     [AI.Post prompt emergency; AI.LogEmpty;
      AI.Post prompt emergency; AI.LogEmpty;
      AI.Post prompt emergency; AI.LogEmpty]).
Proof.
  intros H. unfold AI.generate_response. cbn [seq AI.max_retries AI.attempts].
  destruct (H 0) as (f0 & -> & E0); [lia|].
  destruct (H 1) as (f1 & -> & E1); [lia|].
  destruct (H 2) as (f2 & -> & E2); [lia|].
  cbn. rewrite E0, E1, E2. reflexivity.
Qed.

(** C10, at the failing input.  A 200 reply whose [response] field is
    nothing but markup passes the emptiness test, which is made before the
    cleaning, and the call returns the empty string after its first
    attempt.  Replies whose field is missing, empty or blank, on the other
    hand, are counted against the three attempts and give [None]. *)
Theorem generate_response_returns_empty (prompt : string) (emergency : bool) :
  AI.generate_response prompt emergency
    (fun _ => AI.Response 200 (AI.Body (Some "**")))
  = (Some "", [AI.Post prompt emergency]) /\
  forall replies,
    (forall k, k < 3 -> exists field,
        replies k = AI.Response 200 (AI.Body field) /\
        PyStr.strip (match field with Some r => r | None => "" end) = "") ->
    fst (AI.generate_response prompt emergency replies) = None /\
    AI.posts (snd (AI.generate_response prompt emergency replies)) = 3.
Proof.
  split; [reflexivity|].
  intros replies H.
  rewrite (generate_response_blank_retried prompt emergency replies H).
  split; reflexivity.
Qed.

(** ** The listener *)

Section Listener.

Import Audio.

Variables (start timeout : Q) (callback : bool).

Lemma note_partial_silence (current : string) (now : Q) (st : locals) :
  silence_start st = None ->
  silence_start (note_partial callback current now st) = None.
Proof.
  intros H. unfold note_partial.
  destruct (String.eqb current (last_partial st)); [exact H|].
  destruct (PyStr.nonempty current) eqn:E; cbn; [reflexivity|].
  rewrite H, E. reflexivity.
Qed.

Lemma note_partial_result_text (current : string) (now : Q) (st : locals) :
  result_text (note_partial callback current now st) = result_text st.
Proof.
  unfold note_partial.
  destruct (String.eqb current (last_partial st)); [reflexivity|].
  destruct (PyStr.nonempty current); cbn; [reflexivity|].
  destruct (silence_start st); [reflexivity|].
  destruct (PyStr.nonempty current); reflexivity.
Qed.

Lemma silence_running_none (st : locals) :
  silence_start st = None -> silence_running st = None.
Proof. unfold silence_running. now intros ->. Qed.

(** The silence timer is never started, so the loop never leaves by it. *)
Lemma listen_loop_never_by_silence (passes : list pass) (st : locals) :
  silence_start st = None ->
  forall v st', listen_loop start timeout callback st passes <> Some (BySilence, v, st').
Proof.
  revert st. induction passes as [|p passes IH]; intros st Hs v st'; cbn [listen_loop];
    [discriminate|].
  destruct (Qltb (at_loop p - start) timeout); [|discriminate].
  destruct (heard p) as [|text now|current now_mark now_check].
  - now apply IH.
  - match goal with |- context [if ?c then _ else _] => destruct c end;
      [discriminate | now apply IH].
  - rewrite (silence_running_none _ (note_partial_silence current now_mark st Hs)).
    apply IH. now apply note_partial_silence.
Qed.

Lemma listen_loop_timeout (before : list pass) (p : pass) (after : list pass)
    (st : locals) :
  silence_start st = None ->
  forallb (in_time start timeout) before = true ->
  in_time start timeout p = false ->
  (exists v st', listen_loop start timeout callback st (before ++ p :: after)%list
                 = Some (ByFinal, v, st')) \/
  (exists st', listen_loop start timeout callback st (before ++ p :: after)%list
               = Some (ByTimeout,
                       at_timeout (fold_left keep_final before (result_text st)),
                       st')).
Proof.
  intros Hs Hb Hp. revert st Hs Hb.
  induction before as [|q before IH]; intros st Hs Hb.
  - right. exists st. cbn. unfold in_time in Hp. now rewrite Hp.
  - cbn [forallb] in Hb. apply andb_true_iff in Hb as [Hq Hb].
    cbn [app listen_loop fold_left]. unfold in_time in Hq. rewrite Hq.
    unfold keep_final at 2.
    destruct (heard q) as [|text now|current now_mark now_check].
    + now apply IH.
    + match goal with |- context [if ?c then _ else _] => destruct c end.
      * left. eauto.
      * apply (IH {| result_text := PyStr.strip text;
                     last_partial := last_partial st;
                     silence_start := silence_start st;
                     shown := shown st |}); auto.
    + rewrite (silence_running_none _ (note_partial_silence current now_mark st Hs)).
      rewrite <- (note_partial_result_text current now_mark st).
      apply IH; auto. now apply note_partial_silence.
Qed.

End Listener.

(** C1, at the failing input.  The partial "hello" is heard at 0 s and
    silence from 0.25 s on, with a timeout of 5 s.  The silence timer is
    never started ([last_partial] is overwritten with the empty partial
    before it is tested), so the call runs until the timeout and returns
    [None] instead of "hello"; and no call at all ends by the silence
    rule. *)
Theorem listen_misses_silence_endpoint :
  Audio.returned
    (Audio.listen true 0 (5 # 1) true
       (Audio.partial_at 0 "hello" :: Audio.silence_from 1 20))
  = Some None /\
  forall stream_active start timeout callback passes v st,
    Audio.listen stream_active start timeout callback passes
    <> Some (Audio.BySilence, v, st).
Proof.
  split; [reflexivity|].
  intros stream_active start timeout callback passes v st. unfold Audio.listen.
  destruct stream_active; cbn [negb]; [|discriminate].
  now apply listen_loop_never_by_silence.
Qed.

(** C2, as the code has it.  Let the loop condition hold at each of the
    passes [before] and fail at the next one.  Then the call either has
    returned a final result early, or returns at the timeout the stripped
    text of the most recent final result, lower-cased, when that text is
    not empty, and [None] otherwise; partial text plays no part. *)
Theorem listen_timeout_result (start timeout : Q) (callback : bool)
    (before : list Audio.pass) (p : Audio.pass) (after : list Audio.pass) :
  forallb (in_time start timeout) before = true ->
  in_time start timeout p = false ->
  (exists v st,
      Audio.listen true start timeout callback (before ++ p :: after)%list
      = Some (Audio.ByFinal, v, st)) \/
  (exists st,
      Audio.listen true start timeout callback (before ++ p :: after)%list
      = Some (Audio.ByTimeout, at_timeout (last_final_text before), st)).
Proof.
  intros Hb Hp. unfold Audio.listen. cbn [negb].
  apply (listen_loop_timeout start timeout callback before p after Audio.initial);
    auto.
Qed.

(** The theorem at a call of 5 s that hears " Hi There " as a final result
    at 0.25 s, too early to be returned at once, and then speech that never
    becomes final. *)
Lemma listen_timeout_result_witness :
  (exists v st,
      Audio.listen true 0 (5 # 1) true
        ((Audio.final_at 1 " Hi There " :: Audio.speech_from "hi there you" 2 18)
         ++ Audio.partial_at 20 "hi there you" :: [])%list
      = Some (Audio.ByFinal, v, st)) \/
  (exists st,
      Audio.listen true 0 (5 # 1) true
        ((Audio.final_at 1 " Hi There " :: Audio.speech_from "hi there you" 2 18)
         ++ Audio.partial_at 20 "hi there you" :: [])%list
      = Some (Audio.ByTimeout,
              at_timeout
                (last_final_text
                   (Audio.final_at 1 " Hi There " :: Audio.speech_from "hi there you" 2 18)),
              st)).
Proof.
  apply (listen_timeout_result 0 (5 # 1) true
           (Audio.final_at 1 " Hi There " :: Audio.speech_from "hi there you" 2 18)
           (Audio.partial_at 20 "hi there you") []); reflexivity.
Defined.

(** C2, as stated, fails.  Five seconds of speech that the recogniser
    never finalises: the partial "where is the water" was captured, and
    the call returns [None] at the timeout. *)
Lemma listen_timeout_drops_partial :
  Spec.last_captured None (Audio.speech_from "where is the water" 0 21)
  = Some "where is the water" /\
  Audio.listen true 0 (5 # 1) true (Audio.speech_from "where is the water" 0 21)
  = Some (Audio.ByTimeout, None,
          {| Audio.result_text := ""; Audio.last_partial := "where is the water";
             Audio.silence_start := None;
             Audio.shown := ["where is the water"] |}).
Proof. split; reflexivity. Qed.

(** Nor is a non-empty final result kept when an empty one follows it. *)
Example listen_timeout_forgets_final :
  Audio.returned
    (Audio.listen true 0 (5 # 1) false
       (Audio.final_at 1 "hi" :: Audio.final_at 8 "" :: Audio.silence_from 9 12))
  = Some None.
Proof. reflexivity. Qed.

(** ** Wake-word follow-up *)

Section FollowUp.

Import Router.

(** Every request of a call of [generate_response] carries the prompt and
    the urgency flag of the call. *)
Lemma attempts_posts (prompt : string) (emergency : bool)
    (replies : nat -> AI.reply) (todo : list nat) :
  Forall (fun e => AI.is_post e = true -> e = AI.Post prompt emergency)
         (snd (AI.attempts prompt emergency replies todo)).
Proof.
  induction todo as [|k todo IH]; cbn [AI.attempts]; [constructor|].
  destruct (replies k) as [| |code b];
    [destruct (k <? AI.max_retries - 1) | |
     destruct (code =? 200)%Z;
       [destruct b as [|field]; [|destruct (PyStr.nonempty _)]
       | destruct (code =? 404)%Z]];
    unfold AI.and_then; cbn [fst snd app];
    repeat first [ exact IH | apply Forall_nil | apply Forall_cons ];
    intros; solve [reflexivity | discriminate].
Qed.

(** Every attempt begins by sending the request. *)
Lemma attempts_head (prompt : string) (emergency : bool)
    (replies : nat -> AI.reply) (attempt : nat) (rest : list nat) :
  exists r tail,
    AI.attempts prompt emergency replies (attempt :: rest)
    = (r, AI.Post prompt emergency :: tail).
Proof.
  cbn [AI.attempts].
  destruct (replies attempt) as [| |code b];
    [ | |
     destruct (code =? 200)%Z;
       [destruct b as [|field]; [|destruct (PyStr.nonempty _)]
       | destruct (code =? 404)%Z]];
    unfold AI.and_then; cbn [fst snd app]; eauto.
Qed.

(** The worker of a command asks for its completion, with the command
    and the urgency flag it was started with, and answers. *)
Lemma process_in_thread_runs (command : string) (emergency : bool)
    (replies : nat -> AI.reply) (st : flags) :
  exists rest text,
    process_in_thread command emergency replies st
    = ({| is_processing := false; is_listening := is_listening st;
          stop_event := stop_event st |},
       [Status "Consulting AI";
        Completion (AI.Post command emergency :: rest);
        Speak text;
        Status "Ready"]) /\
    Forall (fun e => AI.is_post e = true -> e = AI.Post command emergency) rest.
Proof.
  unfold process_in_thread, AI.generate_response.
  pose proof (attempts_posts command emergency replies (seq 0 AI.max_retries)) as Hp.
  cbn [seq AI.max_retries] in *.
  destruct (attempts_head command emergency replies 0 [1; 2]) as (r & tail & E).
  rewrite E in *. cbn [snd] in Hp. inversion Hp as [|? ? _ Htail]; subst.
  eauto.
Qed.

End FollowUp.

(** C7, as the code has it.  An utterance with a wake phrase is handed to
    the wake-word handler, which speaks the acknowledgement and listens
    again with the configured emergency timeout.  If that returns an
    utterance, it is shown and given to [process_command] with the urgency
    flag set, whatever its words: a worker is started for it, unless a
    command is in flight at that moment, in which case nothing more
    happens.  If it returns nothing, the retry prompt is spoken and no
    worker is started.  A worker started with the flag sends its requests
    with the flag, at least one, and answers. *)
Theorem wake_word_follow_up (config : Router.settings) (said : string)
    (follow_up : option string) (st : Router.flags) :
  Router.classify (Router.wake_words config) said = Router.WakeWord ->
  Router.dispatch config said follow_up st
  = (Router.handle_wake_word_activation config follow_up st, true) /\
  (forall u, follow_up = Some u -> PyStr.nonempty u = true ->
     Router.handle_wake_word_activation config follow_up st
     = if Router.is_processing st
       then (st,
             [Router.Speak Router.acknowledgement;
              Router.Listen (Router.timeout_emergency config);
              Router.Shown u])
       else ({| Router.is_processing := true;
                Router.is_listening := Router.is_listening st;
                Router.stop_event := Router.stop_event st |},
             [Router.Speak Router.acknowledgement;
              Router.Listen (Router.timeout_emergency config);
              Router.Shown u;
              Router.StartWorker u true])) /\
  (PyStr.truthy follow_up = false ->
     Router.handle_wake_word_activation config follow_up st
     = (st,
        [Router.Speak Router.acknowledgement;
         Router.Listen (Router.timeout_emergency config);
         Router.Speak Router.retry_prompt])) /\
  (forall u replies st',
     exists rest text,
       Router.process_in_thread u true replies st'
       = ({| Router.is_processing := false;
             Router.is_listening := Router.is_listening st';
             Router.stop_event := Router.stop_event st' |},
          [Router.Status "Consulting AI";
           Router.Completion (AI.Post u true :: rest);
           Router.Speak text;
           Router.Status "Ready"]) /\
       Forall (fun e => AI.is_post e = true -> e = AI.Post u true) rest).
Proof.
  intros Hc. split; [|split; [|split]].
  - unfold Router.dispatch. now rewrite Hc.
  - intros u -> Hu.
    unfold Router.handle_wake_word_activation, Router.process_command.
    rewrite Hu. now destruct (Router.is_processing st).
  - intros Hf. unfold Router.handle_wake_word_activation.
    destruct follow_up as [u|]; [|reflexivity].
    cbn in Hf. now rewrite Hf.
  - intros u replies st'. apply process_in_thread_runs.
Qed.

(** The theorem at the utterance "assistant" under the default settings,
    followed by "my tent is flooding", which names no emergency keyword,
    with no command in flight. *)
Lemma wake_word_follow_up_witness :
  Router.handle_wake_word_activation Router.default_settings
    (Some "my tent is flooding") Router.idle
  = ({| Router.is_processing := true; Router.is_listening := false;
        Router.stop_event := false |},
     [Router.Speak Router.acknowledgement;
      Router.Listen (15 # 1);
      Router.Shown "my tent is flooding";
      Router.StartWorker "my tent is flooding" true]).
Proof.
  apply (proj1 (proj2 (wake_word_follow_up Router.default_settings "assistant"
                         (Some "my tent is flooding") Router.idle eq_refl))
           "my tent is flooding" eq_refl eq_refl).
Defined.

(** C7, as stated, fails.  The loop hears "assistant" and starts its
    follow-up listen, during which [is_listening] is not set; a click on
    the voice button passes the busy test, and its capture worker hears
    "what is this" and starts a worker, setting [is_processing].  The
    follow-up "my tent is flooding" is then heard, shown and dropped by
    the busy test of [process_command]: no second worker is started. *)
Lemma wake_word_follow_up_dropped :
  Threads.run Router.default_settings
    [Threads.Main None; Threads.Main None; Threads.Main (Some "assistant");
     Threads.Main None; Threads.Main None;
     Threads.Click false; Threads.Capture 0 None;
     Threads.Capture 0 (Some "what is this"); Threads.Capture 0 None;
     Threads.Capture 0 None]
    Threads.boot
  = Some {| Threads.shared :=
              {| Router.is_processing := true; Router.is_listening := false;
                 Router.stop_event := false |};
            Threads.main := Threads.MFollowUp;
            Threads.captures := [Threads.CDone];
            Threads.workers := 1 |} /\
  Threads.run Router.default_settings
    [Threads.Main None; Threads.Main None; Threads.Main (Some "assistant");
     Threads.Main None; Threads.Main None;
     Threads.Click false; Threads.Capture 0 None;
     Threads.Capture 0 (Some "what is this"); Threads.Capture 0 None;
     Threads.Capture 0 None;
     Threads.Main (Some "my tent is flooding")]
    Threads.boot
  = Some {| Threads.shared :=
              {| Router.is_processing := true; Router.is_listening := false;
                 Router.stop_event := false |};
            Threads.main := Threads.MTop;
            Threads.captures := [Threads.CDone];
            Threads.workers := 1 |} /\
  Router.handle_wake_word_activation Router.default_settings
    (Some "my tent is flooding")
    {| Router.is_processing := true; Router.is_listening := false;
       Router.stop_event := false |}
  = ({| Router.is_processing := true; Router.is_listening := false;
        Router.stop_event := false |},
     [Router.Speak Router.acknowledgement;
      Router.Listen (15 # 1);
      Router.Shown "my tent is flooding"]).
Proof. repeat split. Qed.

(** ** Configuration merge *)

Section Merge.

Import Config.

Lemma lookup_set_same (key : string) (value : json) (d : dict) :
  lookup key (set key value d) = Some value.
Proof.
  induction d as [|[k v] d IH]; cbn [set lookup].
  - now rewrite String.eqb_refl.
  - destruct (String.eqb key k) eqn:E; cbn [lookup]; rewrite E; auto.
Qed.

Lemma lookup_set_other (key other : string) (value : json) (d : dict) :
  String.eqb other key = false ->
  lookup other (set key value d) = lookup other d.
Proof.
  intros H. induction d as [|[k v] d IH]; cbn [set lookup].
  - now rewrite H.
  - destruct (String.eqb key k) eqn:E; cbn [lookup].
    + apply String.eqb_eq in E; subst k. now rewrite H.
    + now rewrite IH.
Qed.

Lemma deep_update_nil (base : dict) : deep_update base [] = base.
Proof. reflexivity. Qed.

Lemma deep_update_cons (base : dict) (key : string) (value : json)
    (rest : list (string * json)) :
  deep_update base ((key, value) :: rest)
  = deep_update (update_item base key value) rest.
Proof.
  unfold deep_update, update_item. cbn [deep_update_json].
  destruct (lookup key base) as [[]|]; destruct value; reflexivity.
Qed.

Lemma lookup_update_item_same (base : dict) (key : string) (value : json) :
  lookup key (update_item base key value) = Some (merged (lookup key base) value).
Proof.
  unfold update_item, merged.
  destruct (lookup key base) as [[]|]; destruct value; apply lookup_set_same.
Qed.

Lemma lookup_update_item_other (base : dict) (key other : string) (value : json) :
  String.eqb other key = false ->
  lookup other (update_item base key value) = lookup other base.
Proof.
  intros H. unfold update_item.
  destruct (lookup key base) as [[]|]; destruct value;
    now apply lookup_set_other.
Qed.

Lemma lookup_absent (key : string) (d : dict) :
  existsb (String.eqb key) (map fst d) = false -> lookup key d = None.
Proof.
  induction d as [|[k v] d IH]; [reflexivity|].
  cbn [map fst existsb lookup]. intros H.
  apply orb_false_iff in H as [-> H]. auto.
Qed.

(** The merge, key by key. *)
Lemma lookup_deep_update (update : dict) :
  distinct (map fst update) = true ->
  forall base key,
    lookup key (deep_update base update)
    = match lookup key update with
      | Some value => Some (merged (lookup key base) value)
      | None => lookup key base
      end.
Proof.
  induction update as [|[k v] update IH]; intros Hd base key; [reflexivity|].
  cbn [map fst distinct] in Hd. apply andb_true_iff in Hd as [Hk Hd].
  apply negb_true_iff in Hk.
  rewrite deep_update_cons, (IH Hd). cbn [lookup].
  destruct (String.eqb key k) eqn:E.
  - apply String.eqb_eq in E; subst k.
    rewrite (lookup_absent _ _ Hk). apply lookup_update_item_same.
  - now rewrite (lookup_update_item_other _ _ _ _ E).
Qed.

Lemma wf_items (items : dict) (key : string) (value : json) :
  wf (JObj items) = true -> lookup key items = Some value ->
  distinct (map fst items) = true /\ wf value = true.
Proof.
  cbn [wf]. intros H. apply andb_true_iff in H as [Hd Ha]. intros Hl.
  split; [exact Hd|]. clear Hd.
  induction items as [|[k v] items IH]; [discriminate|].
  apply andb_true_iff in Ha as [Hv Ha]. cbn [lookup] in Hl.
  destruct (String.eqb key k); [now injection Hl as <- | auto].
Qed.

(** A value of the user document that is not itself an object is found
    under the same path after the merge. *)
Lemma at_path_deep_update (path : list string) :
  forall base update leaf,
    wf (JObj update) = true ->
    path <> [] ->
    at_path path (JObj update) = Some leaf ->
    is_dict leaf = false ->
    at_path path (JObj (deep_update base update)) = Some leaf.
Proof.
  induction path as [|key path IH]; intros base update leaf Hwf Hne Hat Hleaf;
    [congruence|].
  cbn [at_path] in *.
  destruct (lookup key update) as [value|] eqn:Hl; [|discriminate].
  destruct (wf_items update key value Hwf Hl) as [Hd Hv].
  rewrite (lookup_deep_update update Hd), Hl.
  unfold merged.
  destruct (lookup key base) as [[| | | | |nested]|]; try exact Hat.
  destruct value as [| | | | |inner]; try exact Hat.
  destruct path as [|key' path].
  - cbn in Hat. injection Hat as <-. discriminate.
  - apply IH; auto. discriminate.
Qed.

End Merge.

(** C8.  For every default configuration and every user document, the
    merge holds under each key of the user document the user's value,
    except that where both values are objects it holds their merge, made in
    the same way; under every other key it holds the default value; and
    every value of the user document that is not an object is found under
    its path in the result. *)
Theorem validate_config_merges (defaults update : Config.dict) :
  Config.wf (Config.JObj update) = true ->
  Config.validate_config defaults (Config.JObj update)
  = Some (Config.deep_update defaults update) /\
  (forall key,
     Config.lookup key (Config.deep_update defaults update)
     = match Config.lookup key update with
       | Some value =>
           match Config.lookup key defaults, value with
           | Some (Config.JObj nested), Config.JObj inner =>
               Some (Config.JObj (Config.deep_update nested inner))
           | _, _ => Some value
           end
       | None => Config.lookup key defaults
       end) /\
  (forall path leaf,
     path <> [] ->
     Config.at_path path (Config.JObj update) = Some leaf ->
     Config.is_dict leaf = false ->
     Config.at_path path (Config.JObj (Config.deep_update defaults update))
     = Some leaf).
Proof.
  intros Hwf. split; [reflexivity | split].
  - intros key.
    assert (Hd : Config.distinct (map fst update) = true).
    { cbn [Config.wf] in Hwf. now apply andb_true_iff in Hwf as [Hd _]. }
    rewrite (lookup_deep_update update Hd).
    destruct (Config.lookup key update) as [value|]; [|reflexivity].
    unfold Config.merged.
    destruct (Config.lookup key defaults) as [[]|]; destruct value; reflexivity.
  - intros path leaf Hne Hat Hleaf. now apply at_path_deep_update.
Qed.

(** The theorem at the defaults of the source and a user file that sets
    [audio_settings.timeout_default] to 12. *)
Lemma validate_config_merges_witness :
  Config.at_path ["audio_settings"; "timeout_default"]
    (Config.JObj (Config.deep_update Config.DEFAULT_CONFIG Config.sample_user_config))
  = Some (Config.JNum (12 # 1)).
Proof.
  destruct (validate_config_merges Config.DEFAULT_CONFIG Config.sample_user_config
              eq_refl) as (_ & _ & H).
  apply H; [discriminate | reflexivity | reflexivity].
Defined.

(** The same merge keeps the audio settings that the user file does not
    name, keeps the top-level defaults, and takes the new key. *)
Example validate_config_partial_override :
  let merged :=
    Config.JObj (Config.deep_update Config.DEFAULT_CONFIG Config.sample_user_config) in
  Config.at_path ["audio_settings"; "sample_rate"] merged
  = Some (Config.JNum (16000 # 1)) /\
  Config.at_path ["audio_settings"; "timeout_emergency"] merged
  = Some (Config.JNum (15 # 1)) /\
  Config.at_path ["model_name"] merged
  = Some (Config.JStr "Android_Artisan/Gemma3-Android:latest") /\
  Config.at_path ["language"] merged = Some (Config.JStr "en").
Proof. repeat split. Qed.

(** ** The flags under interleaving *)

Section Flags.

Import Router Threads.

Variable config : settings.

Lemma process_command_listening (command : string) (emergency : bool) (st : flags) :
  is_listening (fst (process_command command emergency st)) = is_listening st.
Proof. unfold process_command. now destruct (is_processing st). Qed.

Lemma handle_wake_word_listening (follow_up : option string) (st : flags) :
  is_listening (fst (handle_wake_word_activation config follow_up st))
  = is_listening st.
Proof.
  unfold handle_wake_word_activation.
  destruct follow_up as [said|]; [|reflexivity].
  destruct (PyStr.nonempty said); [|reflexivity].
  pose proof (process_command_listening said true st) as H.
  destruct (process_command said true st). exact H.
Qed.

Lemma loop_alone_step (m : move) (w w' : world) :
  no_click m = true -> loop_alone w -> step config m w = Some w' -> loop_alone w'.
Proof.
  intros Hm [Hc Hw]. destruct m as [heard|emergency|i heard|]; cbn [step];
    try discriminate.
  - unfold main_move. destruct (main w) eqn:Em.
    + intros [= <-]. split; [exact Hc|]. cbn.
      destruct (stop_event (shared w)); [exact Hw|].
      destruct (is_processing (shared w)) eqn:Ep; auto.
    + intros [= <-]. split; [exact Hc|]. cbn. tauto.
    + intros [= <-]. split; [exact Hc|]. cbn. exact Hw.
    + intros [= <-]. split; [exact Hc|]. reflexivity.
    + destruct command as [said|]; [destruct (PyStr.nonempty said)|];
        try (intros [= <-]; split; [exact Hc | exact Hw]).
      destruct (classify (wake_words config) said);
        try (intros [= <-]; split; [exact Hc | exact Hw]).
      * pose proof (process_command_listening said true (shared w)) as H.
        destruct (process_command said true (shared w)).
        intros [= <-]. split; [exact Hc|]. cbn in *. congruence.
      * pose proof (process_command_listening said false (shared w)) as H.
        destruct (process_command said false (shared w)).
        intros [= <-]. split; [exact Hc|]. cbn in *. congruence.
    + pose proof (handle_wake_word_listening heard (shared w)) as H.
      destruct (handle_wake_word_activation config heard (shared w)).
      intros [= <-]. split; [exact Hc|]. cbn in *. congruence.
    + discriminate.
  - unfold capture_move. rewrite Hc. now destruct i.
  - unfold worker_ends. destruct (workers w); [discriminate|].
    intros [= <-]. split; [exact Hc|]. cbn.
    destruct (main w); cbn; tauto.
Qed.

Lemma loop_alone_run (schedule : list move) :
  forall w w', forallb no_click schedule = true -> loop_alone w ->
               run config schedule w = Some w' -> loop_alone w'.
Proof.
  induction schedule as [|m schedule IH]; intros w w' Hs Hw; cbn [run].
  - now intros [= <-].
  - cbn [forallb] in Hs. apply andb_true_iff in Hs as [Hm Hs].
    destruct (step config m w) as [w1|] eqn:E; [|discriminate].
    apply IH; auto. eapply loop_alone_step; eauto.
Qed.

(** Without manual triggers the guard of the loop is enough: the two
    flags are never set together. *)
Lemma flags_exclusive_without_clicks (schedule : list move) (w : world) :
  forallb no_click schedule = true ->
  run config schedule boot = Some w ->
  both_flags w = false.
Proof.
  intros Hs Hr.
  assert (H : loop_alone w).
  { eapply loop_alone_run; eauto. split; reflexivity. }
  destruct H as [_ H]. unfold both_flags.
  destruct (main w);
    match type of H with
    | _ /\ _ => destruct H as [_ H]; rewrite H; reflexivity
    | is_listening _ = false => rewrite H; reflexivity
    | is_processing _ = false => rewrite H; apply andb_false_r
    end.
Qed.

End Flags.

(** C5, at the failing schedule.  The loop listens, hears "fire is
    urgent" and clears [is_listening]; before it reaches
    [process_command], a click on the voice button passes the busy test and
    its capture worker sets [is_listening]; the loop then sets
    [is_processing].  Both flags are true in the state reached.  In the
    runs without a click, on the other hand, the two flags are never true
    together. *)
Theorem flags_both_true_reachable :
  Threads.run Router.default_settings
    [Threads.Main None; Threads.Main None;
     Threads.Main (Some "fire is urgent"); Threads.Main None;
     Threads.Click false; Threads.Capture 0 None;
     Threads.Main None]
    Threads.boot
  = Some {| Threads.shared :=
              {| Router.is_processing := true; Router.is_listening := true;
                 Router.stop_event := false |};
            Threads.main := Threads.MTop;
            Threads.captures := [Threads.CListening false];
            Threads.workers := 1 |} /\
  forall config schedule w,
    forallb Threads.no_click schedule = true ->
    Threads.run config schedule Threads.boot = Some w ->
    Threads.both_flags w = false.
Proof.
  split; [reflexivity|].
  intros config schedule w. apply flags_exclusive_without_clicks.
Qed.

(** ** Shutdown of the speech worker *)

Section SpeechShutdown.

Import Speech.

Lemma sentinel_queued_app (q : list (option string)) (text : string) (w : world) :
  tts_queue w = q ->
  existsb (fun item => match item with None => true | Some _ => false end)
          (q ++ [Some text])%list
  = sentinel_queued w.
Proof.
  intros <-. unfold sentinel_queued. rewrite existsb_app. cbn. apply orb_false_r.
Qed.

Lemma before_shutdown_step (m : move) (w w' : world) :
  before_shutdown w -> step m w = Some w' -> before_shutdown w'.
Proof.
  intros Hw. unfold before_shutdown in *.
  destruct (tts_stop_event w) eqn:Es.
  - (* the event is set and stays set *)
    destruct m as [|text|]; cbn [step].
    + unfold worker_move. rewrite Es.
      destruct (worker w); [| destruct (tts_queue w) as [|[t|] q] | |];
        try discriminate; intros [= <-]; cbn; discriminate.
    + unfold enqueue. rewrite Es. intros [= <-]; cbn. congruence.
    + unfold shut_move. rewrite ?Es.
      destruct (closing w); [| destruct (is_alive w) | | |];
        try discriminate; intros [= <-]; cbn; congruence.
  - destruct (Hw eq_refl) as (Hq & Ha & Hc).
    destruct m as [|text|]; cbn [step].
    + unfold worker_move. rewrite Es. unfold sentinel_queued, is_alive in *.
      destruct (worker w) eqn:Ew; try discriminate.
      * intros [= <-]; cbn. auto.
      * destruct (tts_queue w) as [|[t|] q] eqn:Eq; intros [= <-]; cbn in *;
          try discriminate; auto.
      * intros [= <-]; cbn. auto.
    + unfold enqueue. rewrite Es. intros [= <-]. intros _.
      unfold sentinel_queued at 1. unfold is_alive in *. cbn [tts_queue worker closing].
      rewrite (sentinel_queued_app (tts_queue w) text w eq_refl). auto.
    + unfold shut_move. rewrite Hc. intros [= <-]. cbn. discriminate.
Qed.

Lemma before_shutdown_run (schedule : list move) :
  forall w w', before_shutdown w -> run schedule w = Some w' -> before_shutdown w'.
Proof.
  induction schedule as [|m schedule IH]; intros w w' Hw; cbn [run].
  - now intros [= <-].
  - destruct (step m w) as [w1|] eqn:E; [|discriminate].
    apply IH. eapply before_shutdown_step; eauto.
Qed.

(** The closing thread reaches its return by its own moves. *)
Lemma shutdown_returns (w : world) :
  exists n w', n <= 4 /\ run (repeat Shut n) w = Some w' /\
               closing w' = Returned /\ worker w' = worker w.
Proof.
  destruct (closing w) eqn:Ec.
  - destruct (is_alive w) eqn:Ea.
    + exists 4. eexists. split; [lia|]. cbn. unfold shut_move. rewrite Ec. cbn.
      unfold is_alive in *. cbn. rewrite Ea. cbn. auto.
    + exists 3. eexists. split; [lia|]. cbn. unfold shut_move. rewrite Ec. cbn.
      unfold is_alive in *. cbn. rewrite Ea. cbn. auto.
  - destruct (is_alive w) eqn:Ea.
    + exists 3. eexists. split; [lia|]. cbn. unfold shut_move. rewrite Ec, Ea. cbn. auto.
    + exists 2. eexists. split; [lia|]. cbn. unfold shut_move. rewrite Ec, Ea. cbn. auto.
  - exists 2. eexists. split; [lia|]. cbn. unfold shut_move. rewrite Ec. cbn. auto.
  - exists 1. eexists. split; [lia|]. cbn. unfold shut_move. rewrite Ec. cbn. auto.
  - exists 0, w. split; [lia|]. cbn. auto.
Qed.

End SpeechShutdown.

Section WorkerEnds.

Import Speech Ending.

Lemma sentinels_app (q1 q2 : list (option string)) :
  sentinels (q1 ++ q2) = sentinels q1 + sentinels q2.
Proof.
  induction q1 as [|[t|] q1 IH]; cbn [sentinels app]; [reflexivity | exact IH |].
  now rewrite IH.
Qed.

Lemma sentinels_queued (w : world) :
  sentinel_queued w = negb (sentinels (tts_queue w) =? 0).
Proof.
  unfold sentinel_queued. induction (tts_queue w) as [|[t|] q IH];
    cbn [existsb sentinels orb]; auto.
Qed.

Lemma one_sentinel_step (m : move) (w w' : world) :
  one_sentinel w -> step m w = Some w' -> one_sentinel w'.
Proof.
  unfold one_sentinel, taken. destruct m as [|text|]; cbn [step].
  - unfold worker_move.
    destruct (worker w) eqn:Ew; [| destruct (tts_queue w) as [|[t|] q] eqn:Eq | |];
      try discriminate; intros H [= <-]; cbn [closing tts_queue worker];
      rewrite ?Eq in *; cbn [sentinels] in *;
      destruct (tts_stop_event w); destruct (closing w); lia.
  - unfold enqueue. intros H [= <-]. cbn [closing tts_queue worker].
    destruct (tts_stop_event w); [exact H|].
    rewrite sentinels_app. cbn [sentinels]. rewrite Nat.add_0_r. exact H.
  - unfold shut_move, is_alive.
    destruct (closing w) eqn:Ec; [| destruct (worker w) eqn:Ew | | |];
      try discriminate; intros H [= <-]; cbn [closing tts_queue worker];
      rewrite ?Ew in *; rewrite ?sentinels_app; cbn [sentinels]; lia.
Qed.

Lemma one_sentinel_run (schedule : list move) :
  forall w w', one_sentinel w -> run schedule w = Some w' -> one_sentinel w'.
Proof.
  induction schedule as [|m schedule IH]; intros w w' Hw; cbn [run].
  - now intros [= <-].
  - destruct (step m w) as [w1|] eqn:E; [|discriminate].
    apply IH. eapply one_sentinel_step; eauto.
Qed.

(** A sentinel leaves the queue only into the hands of the worker. *)
Lemma sentinels_step (m : move) (w w' : world) :
  step m w = Some w' ->
  sentinels (tts_queue w') + taken w'
  = sentinels (tts_queue w) + taken w + put_by m w.
Proof.
  unfold taken, put_by. destruct m as [|text|]; cbn [step].
  - unfold worker_move.
    destruct (worker w) eqn:Ew; [| destruct (tts_queue w) as [|[t|] q] eqn:Eq | |];
      try discriminate; intros [= <-]; cbn [tts_queue worker];
      rewrite ?Eq; cbn [sentinels];
      destruct (tts_stop_event w); lia.
  - unfold enqueue. intros [= <-]. cbn [tts_queue worker].
    destruct (tts_stop_event w); rewrite ?sentinels_app; cbn [sentinels]; lia.
  - unfold shut_move.
    destruct (closing w) eqn:Ec; [| destruct (is_alive w) | | |];
      try discriminate; intros [= <-]; cbn [tts_queue worker];
      rewrite ?sentinels_app; cbn [sentinels]; lia.
Qed.

Lemma sentinels_run (schedule : list move) :
  forall w w',
    run schedule w = Some w' ->
    sentinels (tts_queue w') + taken w'
    = sentinels (tts_queue w) + taken w + puts schedule w.
Proof.
  induction schedule as [|m schedule IH]; intros w w'; cbn [run puts].
  - intros [= <-]. lia.
  - destruct (step m w) as [w1|] eqn:E; [|discriminate]. intros Hr.
    rewrite (IH w1 w' Hr), (sentinels_step m w w1 E). lia.
Qed.

(** With the stop event set, every step of the worker brings it nearer
    to its end, and no step of another thread takes it away from it. *)
Lemma ending_step (m : move) (w w' : world) :
  tts_stop_event w = true -> step m w = Some w' ->
  tts_stop_event w' = true /\
  worker_moves [m] + steps_left w' <= steps_left w.
Proof.
  intros Hs. unfold steps_left, worker_moves. destruct m as [|text|]; cbn [step].
  - unfold worker_move. rewrite Hs.
    destruct (worker w); [| destruct (tts_queue w) as [|[t|] q] | |];
      try discriminate; intros [= <-]; cbn; auto.
  - unfold enqueue. intros [= <-]. cbn. split; [exact Hs | lia].
  - unfold shut_move.
    destruct (closing w); [| destruct (is_alive w) | | |]; try discriminate;
      intros [= <-]; cbn; auto.
Qed.

Lemma ending_run (schedule : list move) :
  forall w w',
    tts_stop_event w = true -> run schedule w = Some w' ->
    worker_moves schedule + steps_left w' <= steps_left w.
Proof.
  induction schedule as [|m schedule IH]; intros w w' Hs; cbn [run].
  - intros [= <-]. cbn. lia.
  - destruct (step m w) as [w1|] eqn:E; [|discriminate].
    destruct (ending_step m w w1 Hs E) as [Hs1 H1]. intros Hr.
    specialize (IH w1 w' Hs1 Hr).
    unfold worker_moves in *. cbn [filter] in *.
    destruct m; cbn [List.length] in *; lia.
Qed.

(** With the stop event set, the worker reaches its end by three steps
    of its own at most. *)
Lemma worker_ends (w : world) :
  tts_stop_event w = true ->
  exists n how w',
    n <= 3 /\ run (repeat Worker n) w = Some w' /\ worker w' = Exited how.
Proof.
  intros Hs. destruct (worker w) as [| |text|how] eqn:Ew.
  - exists 1. do 2 eexists. split; [lia|]. cbn. unfold worker_move.
    rewrite Ew, Hs. split; reflexivity.
  - destruct (tts_queue w) as [|[t|] q] eqn:Eq.
    + exists 2. do 2 eexists. split; [lia|]. cbn. unfold worker_move.
      rewrite Ew, Eq. cbn. rewrite Hs. split; reflexivity.
    + exists 3. do 2 eexists. split; [lia|]. cbn. unfold worker_move.
      rewrite Ew, Eq. cbn. rewrite Hs. split; reflexivity.
    + exists 1. do 2 eexists. split; [lia|]. cbn. unfold worker_move.
      rewrite Ew, Eq. split; reflexivity.
  - exists 2. do 2 eexists. split; [lia|]. cbn. unfold worker_move.
    rewrite Ew. cbn. rewrite Hs. split; reflexivity.
  - exists 0, how, w. split; [lia|]. split; [reflexivity | exact Ew].
Qed.

End WorkerEnds.

(** C9, as the code has it.  In every run of the speech worker, its
    callers and the closing thread:
    - the worker leaves its loop only once [shutdown] has set the stop
      event; when it has left by taking the sentinel, the closing thread
      had queued it and none is left in the queue; when it has left by
      finding the event set, it has taken none: the queue holds as many
      sentinels as were queued, one at most, and it does hold the one of
      a closing thread that is in its [join];
    - once the event is set, the worker ends by three steps of its own at
      most, whatever the other threads do meanwhile;
    - from every state the closing thread returns by at most four steps
      of its own, the worker standing where it stood, be it inside a
      synthesis call. *)
Theorem shutdown_bounded (schedule : list Speech.move) (w : Speech.world) :
  Speech.run schedule Speech.started = Some w ->
  (forall how, Speech.worker w = Speech.Exited how ->
     Speech.tts_stop_event w = true /\
     match how with
     | Speech.TookSentinel =>
         Ending.puts schedule Speech.started = 1 /\
         Speech.sentinel_queued w = false /\
         Speech.closing w <> Speech.NotCalled /\
         Speech.closing w <> Speech.AtPut
     | Speech.SawStopEvent =>
         Ending.sentinels (Speech.tts_queue w)
         = Ending.puts schedule Speech.started /\
         Ending.puts schedule Speech.started <= 1 /\
         (Speech.closing w = Speech.AtJoin -> Speech.sentinel_queued w = true)
     end) /\
  (Speech.tts_stop_event w = true ->
     (exists n how w',
        n <= 3 /\ Speech.run (repeat Speech.Worker n) w = Some w' /\
        Speech.worker w' = Speech.Exited how) /\
     (forall more w',
        Speech.run more w = Some w' ->
        Ending.worker_moves more + Ending.steps_left w' <= Ending.steps_left w /\
        Ending.steps_left w <= 3)) /\
  (exists n w',
     n <= 4 /\ Speech.run (repeat Speech.Shut n) w = Some w' /\
     Speech.closing w' = Speech.Returned /\ Speech.worker w' = Speech.worker w).
Proof.
  intros Hr. split; [|split; [|apply shutdown_returns]].
  - intros how Hw.
    assert (H : Speech.before_shutdown w).
    { eapply before_shutdown_run; [|exact Hr]. intros _. repeat split. }
    assert (H1 : Ending.one_sentinel w).
    { eapply one_sentinel_run; [|exact Hr]. reflexivity. }
    split.
    + destruct (Speech.tts_stop_event w) eqn:Es; [reflexivity|].
      destruct (H Es) as (_ & Ha & _). unfold Speech.is_alive in Ha.
      rewrite Hw in Ha. discriminate.
    + pose proof (sentinels_run schedule Speech.started w Hr) as H2.
      unfold Ending.one_sentinel, Ending.taken in H1, H2.
      rewrite Hw in H1, H2. cbn in H2.
      rewrite sentinels_queued.
      destruct how; destruct (Speech.closing w); try lia;
        repeat split; try discriminate; try congruence; try lia; intros;
        try (destruct (Ending.sentinels (Speech.tts_queue w)); cbn; congruence || lia).
  - intros Hs. split; [now apply worker_ends|].
    intros more w' Hm. split; [now apply ending_run|].
    unfold Ending.steps_left. destruct (Speech.worker w); lia.
Qed.

(** The theorem at a run in which [shutdown] is called while the worker
    is inside the synthesis of "stay calm": the event is set, the sentinel
    queued, and the closing thread in its [join]. *)
Lemma shutdown_bounded_witness :
  exists n how w',
    n <= 3 /\
    Speech.run (repeat Speech.Worker n)
      {| Speech.tts_queue := [None]; Speech.tts_stop_event := true;
         Speech.worker := Speech.Speaking "stay calm";
         Speech.closing := Speech.AtJoin; Speech.spoken := [] |} = Some w' /\
    Speech.worker w' = Speech.Exited how.
Proof.
  apply (proj1 (proj1 (proj2
           (shutdown_bounded
              [Speech.Worker; Speech.Enqueue "stay calm"; Speech.Worker;
               Speech.Shut; Speech.Shut]
              {| Speech.tts_queue := [None]; Speech.tts_stop_event := true;
                 Speech.worker := Speech.Speaking "stay calm";
                 Speech.closing := Speech.AtJoin; Speech.spoken := [] |}
              eq_refl)) eq_refl)).
Defined.

(** C9, as stated, fails.  The farewell is queued and the worker is
    speaking it when [shutdown] sets the event and queues the sentinel; the
    worker comes back to its loop test, finds the event set and leaves.
    The shutdown has returned, the worker has ended, and the sentinel is
    still in the queue. *)
Lemma sentinel_left_in_queue :
  Speech.run
    [Speech.Worker; Speech.Enqueue Speech.farewell; Speech.Worker;
     Speech.Shut; Speech.Shut;
     Speech.Worker; Speech.Worker;
     Speech.Shut; Speech.Shut]
    Speech.started
  = Some {| Speech.tts_queue := [None];
            Speech.tts_stop_event := true;
            Speech.worker := Speech.Exited Speech.SawStopEvent;
            Speech.closing := Speech.Returned;
            Speech.spoken := [Speech.farewell] |}.
Proof. reflexivity. Qed.

(** * Further properties of the code *)

(** ** Lower case and white space *)

Section Casing.

Import PyStr.

Lemma is_space_lower_char (c : ascii) : is_space (lower_char c) = is_space c.
Proof. destruct c as [[] [] [] [] [] [] [] []]; reflexivity. Qed.

Lemma lower_char_small (c : ascii) :
  negb ((65 <=? nat_of_ascii (lower_char c)) && (nat_of_ascii (lower_char c) <=? 90))
  = true.
Proof. destruct c as [[] [] [] [] [] [] [] []]; reflexivity. Qed.

Lemma no_capitals_lower (s : string) : no_capitals (lower s) = true.
Proof.
  induction s as [|c s IH]; [reflexivity|].
  cbn [lower no_capitals]. now rewrite lower_char_small, IH.
Qed.

Lemma nonempty_lower (s : string) : nonempty (lower s) = nonempty s.
Proof. now destruct s. Qed.

Lemma lstrip_lower (s : string) : lstrip (lower s) = lower (lstrip s).
Proof.
  induction s as [|c s IH]; [reflexivity|].
  cbn [lower lstrip]. rewrite is_space_lower_char.
  now destruct (is_space c).
Qed.

Lemma rstrip_lower (s : string) : rstrip (lower s) = lower (rstrip s).
Proof.
  induction s as [|c s IH]; [reflexivity|].
  cbn [lower rstrip]. rewrite IH, is_space_lower_char.
  destruct (rstrip s); [destruct (is_space c)|]; reflexivity.
Qed.

Lemma strip_lower (s : string) : strip (lower s) = lower (strip s).
Proof. unfold strip. now rewrite lstrip_lower, rstrip_lower. Qed.

(** A text without occurrence of [old] is left as it is. *)
Lemma replace_absent (old new s : string) :
  old <> "" -> contains old s = false -> replace old new s = s.
Proof.
  intros Hold. destruct old as [|a o]; [congruence|]. clear Hold.
  apply (replace_ind a o new (fun s r => contains (String a o) s = false -> r = s)).
  - reflexivity.
  - intros c t E _ H. rewrite contains_unfold, E in H. discriminate.
  - intros c t _ IH H. rewrite contains_unfold in H.
    apply orb_false_iff in H as [_ H]. now rewrite IH.
Qed.

End Casing.

(** ** More on the listener *)

Section ListenerMore.

Import Audio.

Variables (start timeout : Q) (callback : bool).

Lemma settled_note_partial (current : string) (now : Q) (st : locals) :
  settled st -> settled (note_partial callback current now st).
Proof.
  intros [Hs Hr]. split.
  - now apply note_partial_silence.
  - now rewrite note_partial_result_text.
Qed.

Lemma listen_loop_value (passes : list pass) (st : locals) :
  settled st ->
  forall e s st',
    listen_loop start timeout callback st passes = Some (e, Some s, st') ->
    PyStr.nonempty s = true /\ no_capitals s = true /\ PyStr.strip s = s.
Proof.
  revert st. induction passes as [|p passes IH]; intros st Hst e s st';
    cbn [listen_loop]; [discriminate|].
  assert (Hval : forall text, PyStr.strip text = text ->
            PyStr.nonempty text = true ->
            PyStr.nonempty (PyStr.lower text) = true /\
            no_capitals (PyStr.lower text) = true /\
            PyStr.strip (PyStr.lower text) = PyStr.lower text).
  { intros text Ht Hn. rewrite nonempty_lower, no_capitals_lower, strip_lower, Ht.
    auto. }
  destruct (Qltb (at_loop p - start) timeout).
  - destruct (heard p) as [|text now|current now_mark now_check].
    + now apply IH.
    + cbn [result_text].
      destruct (PyStr.nonempty (PyStr.strip text)) eqn:En; cbn [andb].
      * destruct (Qltb min_speech_duration (now - start)).
        -- intros [= <- <- <-]. apply Hval; [apply strip_idem | exact En].
        -- apply IH. destruct Hst as [Hs _]. split; [exact Hs | apply strip_idem].
      * apply IH. destruct Hst as [Hs _]. split; [exact Hs | apply strip_idem].
    + pose proof (settled_note_partial current now_mark st Hst) as Hst1.
      rewrite (silence_running_none _ (proj1 Hst1)). now apply IH.
  - destruct (PyStr.nonempty (result_text st)) eqn:En; [|discriminate].
    intros [= <- <- <-]. apply Hval; [apply Hst | exact En].
Qed.

Lemma listen_loop_skips (passes : list pass) :
  forallb (fun p => frame_read p || in_time start timeout p) passes = true ->
  forall st,
    listen_loop start timeout callback st passes
    = listen_loop start timeout callback st (filter frame_read passes).
Proof.
  induction passes as [|p passes IH]; intros H st; [reflexivity|].
  cbn [forallb] in H. apply andb_true_iff in H as [Hp H].
  cbn [filter]. unfold frame_read at 1 in Hp. unfold frame_read at 1.
  destruct (heard p) as [|text now|current now_mark now_check] eqn:Eh.
  - cbn in Hp. unfold in_time in Hp.
    cbn [listen_loop]. rewrite Hp, Eh. now apply IH.
  - cbn [listen_loop]. rewrite Eh.
    destruct (Qltb (at_loop p - start) timeout); [|reflexivity].
    match goal with |- context [if ?c then _ else _] => destruct c end;
      [reflexivity | now apply IH].
  - cbn [listen_loop]. rewrite Eh.
    destruct (Qltb (at_loop p - start) timeout); [|reflexivity].
    destruct (silence_running (note_partial callback current now_mark st));
      [|now apply IH].
    match goal with |- context [if ?c then _ else _] => destruct c end;
      [reflexivity | now apply IH].
Qed.

Lemma listen_loop_returns (passes : list pass) :
  existsb (fun p => negb (in_time start timeout p)) passes = true ->
  forall st, exists r, listen_loop start timeout callback st passes = Some r.
Proof.
  induction passes as [|p passes IH]; intros H st; [discriminate|].
  cbn [existsb] in H. cbn [listen_loop]. unfold in_time in H.
  destruct (Qltb (at_loop p - start) timeout); [|eauto].
  cbn [negb orb] in H.
  destruct (heard p) as [|text now|current now_mark now_check].
  - now apply IH.
  - match goal with |- context [if ?c then _ else _] => destruct c end;
      [eauto | now apply IH].
  - destruct (silence_running (note_partial callback current now_mark st));
      [|now apply IH].
    match goal with |- context [if ?c then _ else _] => destruct c end;
      [eauto | now apply IH].
Qed.

Lemma fed_note_partial (current : string) (now : Q) (st : locals) :
  fed callback st -> fed callback (note_partial callback current now st).
Proof.
  intros [Hf Hc].
  assert (H1 : fed callback {| result_text := result_text st; last_partial := current;
                      silence_start := silence_start st;
                      shown := if callback && PyStr.nonempty current
                               then (shown st ++ [current])%list else shown st |}).
  { split; cbn [shown].
    - destruct callback; cbn [andb]; [|exact Hf].
      destruct (PyStr.nonempty current) eqn:En; [|exact Hf].
      apply Forall_app. split; [exact Hf | now repeat constructor].
    - intros ->. cbn [andb]. now apply Hc. }
  unfold note_partial.
  destruct (String.eqb current (last_partial st)); [now split|].
  destruct (PyStr.nonempty current) eqn:En; [exact H1|].
  cbn [silence_start last_partial].
  destruct (silence_start st); [exact H1|].
  rewrite En. exact H1.
Qed.

Lemma listen_loop_fed (passes : list pass) (st : locals) :
  fed callback st ->
  forall e v st',
    listen_loop start timeout callback st passes = Some (e, v, st') ->
    fed callback st'.
Proof.
  revert st. induction passes as [|p passes IH]; intros st Hst e v st';
    cbn [listen_loop]; [discriminate|].
  destruct (Qltb (at_loop p - start) timeout); [|now intros [= <- <- <-]].
  destruct (heard p) as [|text now|current now_mark now_check].
  - now apply IH.
  - match goal with |- context [if ?c then _ else _] => destruct c end.
    + intros [= <- <- <-]. exact Hst.
    + apply IH. exact Hst.
  - pose proof (fed_note_partial current now_mark st Hst) as Hst1.
    destruct (silence_running (note_partial callback current now_mark st));
      [|now apply IH].
    match goal with |- context [if ?c then _ else _] => destruct c end;
      [now intros [= <- <- <-] | now apply IH].
Qed.

End ListenerMore.

(** X1.  Whatever [listen] returns besides [None] is a non-empty text
    without upper-case letters and without white space at its ends: the
    test [if command:] of its callers only ever tells [None] from a text. *)
Theorem listen_value_normal (stream_active : bool) (start timeout : Q)
    (callback : bool) (passes : list Audio.pass)
    (e : Audio.exit) (s : string) (st : Audio.locals) :
  Audio.listen stream_active start timeout callback passes = Some (e, Some s, st) ->
  PyStr.nonempty s = true /\ no_capitals s = true /\ PyStr.strip s = s.
Proof.
  unfold Audio.listen. destruct stream_active; cbn [negb]; [|discriminate].
  apply listen_loop_value. split; reflexivity.
Qed.

Lemma listen_value_normal_witness :
  PyStr.nonempty "hi there" = true /\ no_capitals "hi there" = true /\
  PyStr.strip "hi there" = "hi there".
Proof.
  apply (listen_value_normal true 0 (5 # 1) true
           [Audio.final_at 3 " Hi There "] Audio.ByFinal "hi there"
           {| Audio.result_text := "Hi There"; Audio.last_partial := "";
              Audio.silence_start := None; Audio.shown := [] |}).
  reflexivity.
Defined.

(** X2.  A frame that cannot be read or decoded while the call is in time
    is passed over: the call ends as it would without those frames. *)
Theorem listen_skips_failed_frames (stream_active : bool) (start timeout : Q)
    (callback : bool) (passes : list Audio.pass) :
  forallb (fun p => frame_read p || in_time start timeout p) passes = true ->
  Audio.listen stream_active start timeout callback passes
  = Audio.listen stream_active start timeout callback (filter frame_read passes).
Proof.
  intros H. unfold Audio.listen. destruct stream_active; cbn [negb]; [|reflexivity].
  now apply listen_loop_skips.
Qed.

Lemma listen_skips_failed_frames_witness :
  Audio.listen true 0 (5 # 1) true
    [ {| Audio.at_loop := 0; Audio.heard := Audio.Raises |};
      Audio.partial_at 1 "fire";
      {| Audio.at_loop := 1 # 2; Audio.heard := Audio.Raises |};
      Audio.final_at 3 "fire in the tent" ]
  = Audio.listen true 0 (5 # 1) true
      [ Audio.partial_at 1 "fire"; Audio.final_at 3 "fire in the tent" ].
Proof.
  apply (listen_skips_failed_frames true 0 (5 # 1) true
           [ {| Audio.at_loop := 0; Audio.heard := Audio.Raises |};
             Audio.partial_at 1 "fire";
             {| Audio.at_loop := 1 # 2; Audio.heard := Audio.Raises |};
             Audio.final_at 3 "fire in the tent" ]).
  reflexivity.
Defined.

(** X3.  The call returns by the first evaluation of its loop condition
    at which the timeout has elapsed, at the latest: whatever is heard,
    passes that reach the timeout are enough for a result. *)
Theorem listen_returns (stream_active : bool) (start timeout : Q)
    (callback : bool) (passes : list Audio.pass) :
  existsb (fun p => negb (in_time start timeout p)) passes = true ->
  exists r, Audio.listen stream_active start timeout callback passes = Some r.
Proof.
  intros H. unfold Audio.listen. destruct stream_active; cbn [negb]; [|eauto].
  now apply listen_loop_returns.
Qed.

Lemma listen_returns_witness :
  exists r,
    Audio.listen true 0 (5 # 1) true (Audio.speech_from "where is" 0 21) = Some r.
Proof.
  apply (listen_returns true 0 (5 # 1) true (Audio.speech_from "where is" 0 21)).
  reflexivity.
Defined.

(** X4.  The feedback callback is only ever given non-empty partial
    texts, and a call without callback gives none. *)
Theorem listen_feedback (stream_active : bool) (start timeout : Q)
    (callback : bool) (passes : list Audio.pass)
    (e : Audio.exit) (v : option string) (st : Audio.locals) :
  Audio.listen stream_active start timeout callback passes = Some (e, v, st) ->
  Forall (fun text => PyStr.nonempty text = true) (Audio.shown st) /\
  (callback = false -> Audio.shown st = []).
Proof.
  unfold Audio.listen. destruct stream_active; cbn [negb].
  - apply listen_loop_fed. split; [constructor | reflexivity].
  - intros [= <- <- <-]. split; [constructor | reflexivity].
Qed.

Lemma listen_feedback_witness :
  Forall (fun text => PyStr.nonempty text = true) ["hello"] /\
  (true = false -> ["hello"] = []).
Proof.
  apply (listen_feedback true 0 (5 # 1) true
           (Audio.partial_at 0 "hello" :: Audio.silence_from 1 20)
           Audio.ByTimeout None
           {| Audio.result_text := ""; Audio.last_partial := "";
              Audio.silence_start := None; Audio.shown := ["hello"] |}).
  reflexivity.
Defined.

(** ** More on the completion client *)

Section CompletionMore.

Import AI Outcome.

Variables (prompt : string) (emergency : bool) (replies : nat -> reply).

Lemma attempts_first_answer (todo : list nat) :
  fst (attempts prompt emergency replies todo) = first_answer replies todo.
Proof.
  induction todo as [|k todo IH]; [reflexivity|].
  cbn [attempts first_answer]. unfold answer, soft, field_text.
  destruct (replies k) as [| |code [|response]]; cbn [fst and_then];
    try exact IH; try reflexivity.
  - destruct (code =? 200)%Z; [reflexivity|].
    destruct (code =? 404)%Z; [reflexivity | exact IH].
  - destruct (code =? 200)%Z; cbn [andb].
    + destruct (PyStr.nonempty _); [reflexivity | exact IH].
    + destruct (code =? 404)%Z; [reflexivity | exact IH].
Qed.

Lemma soft_no_answer (r : reply) : soft r = true -> answer r = None.
Proof.
  unfold soft, answer. destruct r as [| |code [|response]]; try reflexivity.
  destruct (code =? 200)%Z; cbn [andb]; [|reflexivity].
  now destruct (PyStr.nonempty _).
Qed.

Lemma unit_pauses_app (a b : list event) :
  unit_pauses (a ++ b)%list = unit_pauses a && unit_pauses b.
Proof. unfold unit_pauses. apply forallb_app. Qed.

(** One attempt: one request; it either ends the call, without a pause,
    or hands over to the next attempt, after a pause of one second at
    most and none after the last attempt. *)
Lemma attempts_step (attempt : nat) (rest : list nat) :
  exists evs,
    posts evs = 1 /\ unit_pauses evs = true /\
    ((exists r, attempts prompt emergency replies (attempt :: rest) = (r, evs)
                /\ pauses evs = 0) \/
     (attempts prompt emergency replies (attempt :: rest)
      = and_then evs (attempts prompt emergency replies rest)
      /\ pauses evs <= (if attempt <? max_retries - 1 then 1 else 0))).
Proof.
  cbn [attempts].
  destruct (replies attempt) as [| |code [|response]].
  - eexists. split; [|split; [|right; split; [reflexivity|]]];
      destruct (attempt <? max_retries - 1); cbn; auto.
  - eexists. split; [|split; [|left; eexists; split; reflexivity]]; reflexivity.
  - destruct (code =? 200)%Z; [|destruct (code =? 404)%Z].
    + eexists. split; [|split; [|left; eexists; split; reflexivity]]; reflexivity.
    + eexists. split; [|split; [|left; eexists; split; reflexivity]]; reflexivity.
    + eexists. split; [|split; [|right; split; [reflexivity|]]]; cbn; auto.
      destruct (attempt <? max_retries - 1); lia.
  - destruct (code =? 200)%Z; [destruct (PyStr.nonempty _)|destruct (code =? 404)%Z].
    + eexists. split; [|split; [|left; eexists; split; reflexivity]]; reflexivity.
    + eexists. split; [|split; [|right; split; [reflexivity|]]]; cbn; auto.
      destruct (attempt <? max_retries - 1); lia.
    + eexists. split; [|split; [|left; eexists; split; reflexivity]]; reflexivity.
    + eexists. split; [|split; [|right; split; [reflexivity|]]]; cbn; auto.
      destruct (attempt <? max_retries - 1); lia.
Qed.

End CompletionMore.

(** X5.  Whatever the service replies, a call sends at least one request
    and at most three, pauses at most twice and less often than it sends,
    and every pause lasts one second. *)
Theorem generate_response_bounded (prompt : string) (emergency : bool)
    (replies : nat -> AI.reply) :
  let evs := snd (AI.generate_response prompt emergency replies) in
  1 <= AI.posts evs <= 3 /\
  AI.pauses evs <= 2 /\
  AI.pauses evs < AI.posts evs /\
  Outcome.unit_pauses evs = true.
Proof.
  cbv zeta. unfold AI.generate_response. cbn [seq AI.max_retries].
  destruct (attempts_step prompt emergency replies 0 [1; 2])
    as (e0 & P0 & U0 & [(r0 & -> & Z0) | [-> L0]]);
    [cbn [snd]; rewrite P0, Z0, U0; repeat split; lia|].
  destruct (attempts_step prompt emergency replies 1 [2])
    as (e1 & P1 & U1 & [(r1 & -> & Z1) | [-> L1]]);
    [unfold AI.and_then; cbn [snd fst];
     rewrite posts_app, pauses_app, unit_pauses_app, P0, P1, Z1, U0, U1;
     cbn in L0; repeat split; lia|].
  destruct (attempts_step prompt emergency replies 2 [])
    as (e2 & P2 & U2 & [(r2 & -> & Z2) | [-> L2]]);
    unfold AI.and_then; cbn [snd fst AI.attempts];
    rewrite ?app_nil_r, !posts_app, !pauses_app, !unit_pauses_app,
      P0, P1, P2, U0, U1, U2;
    cbn in L0, L1; try cbn in L2; repeat split; lia.
Qed.

(** X6.  A call returns a text exactly when, among its three attempts,
    one is answered by a 200 whose stripped [response] field is not empty,
    every attempt before it having met a timeout, a status other than 200
    and 404, or a 200 with a blank field; the text is that field,
    cleaned. *)
Theorem generate_response_answer (prompt : string) (emergency : bool)
    (replies : nat -> AI.reply) (text : string) :
  fst (AI.generate_response prompt emergency replies) = Some text <->
  exists k, k < 3 /\ Outcome.answer (replies k) = Some text /\
            forall j, j < k -> Outcome.soft (replies j) = true.
Proof.
  unfold AI.generate_response. rewrite attempts_first_answer.
  cbn [seq AI.max_retries Outcome.first_answer].
  split.
  - destruct (Outcome.answer (replies 0)) as [t0|] eqn:A0.
    { intros [= <-]. exists 0. repeat split; auto; lia. }
    destruct (Outcome.soft (replies 0)) eqn:S0; [|discriminate].
    destruct (Outcome.answer (replies 1)) as [t1|] eqn:A1.
    { intros [= <-]. exists 1. repeat split; auto.
      intros j Hj. now replace j with 0 by lia. }
    destruct (Outcome.soft (replies 1)) eqn:S1; [|discriminate].
    destruct (Outcome.answer (replies 2)) as [t2|] eqn:A2.
    { intros [= <-]. exists 2. repeat split; auto.
      intros j Hj. destruct j as [|[|j]]; auto; lia. }
    destruct (Outcome.soft (replies 2)); discriminate.
  - intros (k & Hk & Ha & Hs).
    destruct k as [|[|[|k]]]; try lia.
    + now rewrite Ha.
    + rewrite (soft_no_answer _ (Hs 0 ltac:(lia))), (Hs 0) by lia. now rewrite Ha.
    + rewrite (soft_no_answer _ (Hs 0 ltac:(lia))), (Hs 0) by lia.
      rewrite (soft_no_answer _ (Hs 1 ltac:(lia))), (Hs 1) by lia. now rewrite Ha.
Qed.

(** X7.  The worker of a command always ends by clearing
    [is_processing] and always utters exactly one text, which is never
    empty: the completion when there is one that is not empty, and
    otherwise the apology, followed in an emergency by the advice to call
    the emergency services. *)
Theorem process_in_thread_answers (command : string) (emergency : bool)
    (replies : nat -> AI.reply) (st : Router.flags) :
  exists text,
    Router.process_in_thread command emergency replies st
    = ({| Router.is_processing := false;
          Router.is_listening := Router.is_listening st;
          Router.stop_event := Router.stop_event st |},
       [Router.Status "Consulting AI";
        Router.Completion (snd (AI.generate_response command emergency replies));
        Router.Speak text;
        Router.Status "Ready"]) /\
    PyStr.nonempty text = true /\
    (forall r, fst (AI.generate_response command emergency replies) = Some r ->
               PyStr.nonempty r = true -> text = r) /\
    (PyStr.truthy (fst (AI.generate_response command emergency replies)) = false ->
     text = if emergency
            then Router.service_trouble ++ Router.call_services
            else Router.service_trouble).
Proof.
  unfold Router.process_in_thread.
  destruct (AI.generate_response command emergency replies) as [response request].
  cbn [fst snd]. destruct response as [r|]; cbn [PyStr.truthy].
  - destruct (PyStr.nonempty r) eqn:En.
    + exists r. repeat split; auto.
      * now intros r' [= <-].
      * discriminate.
    + eexists. split; [reflexivity|]. split; [now destruct emergency|].
      split; [|reflexivity]. intros r' [= <-]. congruence.
  - eexists. split; [reflexivity|]. split; [now destruct emergency|].
    split; [discriminate | reflexivity].
Qed.

(** ** More on the router *)

Section RouterMore.

Import Router.

Lemma any_in_inside (ws : list string) (a u b : string) :
  PyStr.any_in ws u = true -> PyStr.any_in ws (a ++ u ++ b) = true.
Proof.
  unfold PyStr.any_in. rewrite !existsb_exists.
  intros (w & Hw & H). exists w. split; [exact Hw|].
  now apply contains_inside.
Qed.

Lemma lower_occurs_any_in (config : settings) (w u : string) :
  In w (configured_wake_words config) ->
  Spec.occurs (PyStr.lower w) u ->
  PyStr.any_in (wake_words config) u = true.
Proof.
  intros Hw Ho. apply any_in_spec. exists (PyStr.lower w). split; [|exact Ho].
  unfold wake_words. now apply in_map.
Qed.

End RouterMore.

(** X8.  Words around an utterance never lower its place in the chain:
    what holds a wake phrase stays a wake-word utterance whatever is said
    before and after it, an emergency word can only be overridden by a
    wake phrase, a question word only by those two, and an exit word by
    any of them. *)
Theorem classify_context (ww : list string) (a u b : string) :
  Priority.rank (Router.classify ww u)
  <= Priority.rank (Router.classify ww (a ++ u ++ b)).
Proof.
  pose proof (any_in_inside ww a u b) as H1.
  pose proof (any_in_inside Router.emergency_words a u b) as H2.
  pose proof (any_in_inside Router.question_words a u b) as H3.
  pose proof (any_in_inside Router.exit_words a u b) as H4.
  unfold Router.classify.
  destruct (PyStr.any_in ww u), (PyStr.any_in ww (a ++ u ++ b)),
    (PyStr.any_in Router.emergency_words u),
    (PyStr.any_in Router.emergency_words (a ++ u ++ b)),
    (PyStr.any_in Router.question_words u),
    (PyStr.any_in Router.question_words (a ++ u ++ b)),
    (PyStr.any_in Router.exit_words u),
    (PyStr.any_in Router.exit_words (a ++ u ++ b));
    try (now specialize (H1 eq_refl)); try (now specialize (H2 eq_refl));
    try (now specialize (H3 eq_refl)); try (now specialize (H4 eq_refl));
    cbn; lia.
Qed.

(** X9.  A configured wake phrase is looked for in its lower-case form,
    anywhere in the utterance; an empty wake phrase in the configuration
    therefore makes every utterance a wake-word utterance. *)
Theorem wake_phrase_matches (config : Router.settings) (w : string) :
  In w (Router.configured_wake_words config) ->
  (forall u, Spec.occurs (PyStr.lower w) u ->
             Router.classify (Router.wake_words config) u = Router.WakeWord) /\
  (w = "" ->
   forall u, Router.classify (Router.wake_words config) u = Router.WakeWord).
Proof.
  intros Hw.
  assert (H : forall u, Spec.occurs (PyStr.lower w) u ->
            Router.classify (Router.wake_words config) u = Router.WakeWord).
  { intros u Ho. unfold Router.classify.
    now rewrite (lower_occurs_any_in config w u Hw Ho). }
  split; [exact H|].
  intros -> u. apply H. unfold Spec.occurs. exists "", u. reflexivity.
Qed.

Lemma wake_phrase_matches_witness :
  Router.classify
    (Router.wake_words
       {| Router.configured_wake_words := ["Help Me"];
          Router.timeout_default := 8 # 1; Router.timeout_emergency := 15 # 1 |})
    "please help me now" = Router.WakeWord.
Proof.
  apply (proj1 (wake_phrase_matches
                  {| Router.configured_wake_words := ["Help Me"];
                     Router.timeout_default := 8 # 1;
                     Router.timeout_emergency := 15 # 1 |}
                  "Help Me" (or_introl eq_refl))).
  unfold Spec.occurs. exists "please ", " now". reflexivity.
Defined.

(** X10.  A pass of the loop takes the exit path, on which the farewell
    is spoken, exactly when its guard finds no command in flight and it
    hears a non-empty utterance that the chain gives the exit branch.  On
    that path the pass sets the stop event and speaks the farewell;
    [shutdown()] then raises on the loop's own thread, so that the pass
    reaches neither [audio_manager.shutdown()] nor [break]: it sleeps one
    second, and the loop ends at its next test, making no further pass
    whatever is said. *)
Theorem loop_stops_on_exit (config : Router.settings)
    (command follow_up : option string) (st : Router.flags) :
  let '(st', evs, go_on) := Router.main_loop_pass config command follow_up st in
  go_on = true /\
  (In (Router.Speak Router.farewell) evs <->
   Router.is_processing st = false /\
   exists said, command = Some said /\ PyStr.nonempty said = true /\
                Router.classify (Router.wake_words config) said = Router.Exit) /\
  (forall said,
     Router.is_processing st = false -> command = Some said ->
     PyStr.nonempty said = true ->
     Router.classify (Router.wake_words config) said = Router.Exit ->
     evs = [Router.Listening true; Router.Listen (5 # 1); Router.Listening false;
            Router.Shown said; Router.Speak Router.farewell;
            Router.Sleep (1 # 1)] /\
     Router.stop_event st' = true /\
     forall heard, Router.main_loop config heard st' = (st', [])).
Proof.
  unfold Router.main_loop_pass, Router.dispatch,
    Router.handle_wake_word_activation, Router.process_command,
    Router.shutdown_on_loop_thread.
  destruct (Router.is_processing st) eqn:Ep.
  { split; [reflexivity|]. split; [|discriminate].
    cbn. split; [intros [H|[]]; discriminate | now intros [H _]]. }
  destruct command as [said|].
  2:{ split; [reflexivity|]. split; [|discriminate].
      cbn. split; [intuition discriminate | now intros (_ & s & H & _)]. }
  destruct (PyStr.nonempty said) eqn:En.
  2:{ split; [reflexivity|]. split.
      - cbn. split; [intuition discriminate|].
        intros (_ & s & [= <-] & H & _). congruence.
      - intros s _ [= <-] H. congruence. }
  cbn [Router.is_processing].
  destruct (Router.classify (Router.wake_words config) said) eqn:Ec.
  - destruct follow_up as [f|]; [destruct (PyStr.nonempty f)|];
      rewrite ?Ep; (split; [reflexivity|]); (split; [|intros s _ [= <-] _ H; congruence]);
      cbn; (split; [intuition discriminate|]);
      intros (_ & s & [= <-] & _ & H); congruence.
  - rewrite ?Ep. split; [reflexivity|]. split; [|intros s _ [= <-] _ H; congruence].
    cbn. split; [intuition discriminate|].
    intros (_ & s & [= <-] & _ & H); congruence.
  - rewrite ?Ep. split; [reflexivity|]. split; [|intros s _ [= <-] _ H; congruence].
    cbn. split; [intuition discriminate|].
    intros (_ & s & [= <-] & _ & H); congruence.
  - split; [reflexivity|]. split.
    + cbn. split; [|tauto]. intros _. split; [reflexivity|]. exists said. auto.
    + intros s _ [= <-] _ _. split; [reflexivity|]. split; [reflexivity|].
      intros [|[c f] heard]; reflexivity.
  - split; [reflexivity|]. split; [|intros s _ [= <-] _ H; congruence].
    cbn. split; [intuition discriminate|].
    intros (_ & s & [= <-] & _ & H); congruence.
Qed.

(** ** More on the speech queue *)

Section SpeechMore.

Import Speech Backlog.




(** Once the stop event is set, it stays set, and the worker utters at
    most the one text that it is in or about to take. *)
Lemma stopping_step (m : move) (w w' : world) :
  tts_stop_event w = true -> step m w = Some w' ->
  tts_stop_event w' = true /\
  exists more, spoken w' = (spoken w ++ more)%list /\
               List.length more + budget w' <= budget w.
Proof.
  intros Hs. destruct m as [|text|]; cbn [step].
  - unfold worker_move, budget. rewrite Hs.
    destruct (worker w) eqn:Ew; [| destruct (tts_queue w) as [|[t|] q] | |];
      try discriminate; intros [= <-]; cbn [tts_stop_event spoken worker];
      (split; [reflexivity|]);
      first [ exists []; rewrite app_nil_r; split; [reflexivity | cbn; lia]
            | eexists; split; [reflexivity | cbn; lia] ].
  - unfold enqueue, budget. rewrite Hs. intros [= <-].
    cbn [tts_stop_event spoken worker]. split; [reflexivity|].
    exists []. rewrite app_nil_r. split; [reflexivity | cbn; lia].
  - unfold shut_move, budget.
    destruct (closing w); [| destruct (is_alive w) | | |]; try discriminate;
      intros [= <-]; cbn [tts_stop_event spoken worker];
      (split; [auto|]); exists []; rewrite app_nil_r;
      (split; [reflexivity | cbn; lia]).
Qed.

Lemma stopping_run (schedule : list move) :
  forall w w',
    tts_stop_event w = true -> run schedule w = Some w' ->
    exists more, spoken w' = (spoken w ++ more)%list /\
                 List.length more + budget w' <= budget w.
Proof.
  induction schedule as [|m schedule IH]; intros w w' Hs; cbn [run].
  - intros [= <-]. exists []. rewrite app_nil_r. split; [reflexivity | cbn; lia].
  - destruct (step m w) as [w1|] eqn:E; [|discriminate].
    destruct (stopping_step m w w1 Hs E) as (Hs1 & more1 & H1 & L1). intros Hr.
    destruct (IH w1 w' Hs1 Hr) as (more2 & H2 & L2).
    exists (more1 ++ more2)%list. rewrite H2, H1, <- app_assoc.
    split; [reflexivity|]. rewrite length_app. lia.
Qed.

End SpeechMore.



(** X13.  Once the stop event is set, the worker utters at most one more
    text, the one that it is uttering or about to take from the queue;
    whatever else waits in the queue is never uttered. *)
Theorem speech_after_stop (schedule : list Speech.move) (w w' : Speech.world) :
  Speech.tts_stop_event w = true ->
  Speech.run schedule w = Some w' ->
  exists more,
    Speech.spoken w' = (Speech.spoken w ++ more)%list /\
    List.length more <= 1 /\
    (Speech.worker w = Speech.AtLoopTest -> more = []).
Proof.
  intros Hs Hr.
  destruct (stopping_run schedule w w' Hs Hr) as (more & H & L).
  exists more. split; [exact H|]. unfold Backlog.budget in L.
  split.
  - destruct (Speech.worker w); lia.
  - intros Ew. rewrite Ew in L. destruct more; [reflexivity | cbn in L; lia].
Qed.

Lemma speech_after_stop_witness :
  exists more,
    ["first"] = ([] ++ more)%list /\ List.length more <= 1 /\
    (Speech.Speaking "first" = Speech.AtLoopTest -> more = []).
Proof.
  apply (speech_after_stop
           [Speech.Worker; Speech.Worker]
           {| Speech.tts_queue := [Some "second"; Some Speech.farewell; None];
              Speech.tts_stop_event := true;
              Speech.worker := Speech.Speaking "first";
              Speech.closing := Speech.AtJoin;
              Speech.spoken := [] |}
           {| Speech.tts_queue := [Some "second"; Some Speech.farewell; None];
              Speech.tts_stop_event := true;
              Speech.worker := Speech.Exited Speech.SawStopEvent;
              Speech.closing := Speech.AtJoin;
              Speech.spoken := ["first"] |});
    reflexivity.
Defined.

(** ** Wake words of the settings dialog *)

Section WakeWordsFacts.

Import WakeWords.

Lemma split_nonempty (sep : ascii) (s : string) : split sep s <> [].
Proof.
  induction s as [|c s IH]; cbn [split]; [discriminate|].
  destruct (Ascii.eqb c sep); [discriminate|].
  destruct (split sep s); [congruence | discriminate].
Qed.

Lemma split_pieces (sep : ascii) (s : string) :
  Forall (fun piece => PyStr.has_char sep piece = false) (split sep s).
Proof.
  induction s as [|c s IH]; cbn [split]; [now repeat constructor|].
  destruct (Ascii.eqb c sep) eqn:E; [now constructor|].
  destruct (split sep s) as [|first others].
  - constructor; [|constructor].
    cbn [PyStr.has_char]. now rewrite Ascii.eqb_sym, E.
  - inversion IH as [|? ? Hf Ho]; subst. constructor; [|exact Ho].
    cbn [PyStr.has_char]. now rewrite Ascii.eqb_sym, E.
Qed.

Lemma split_line (sep : ascii) (w : string) :
  PyStr.has_char sep w = false -> split sep w = [w].
Proof.
  induction w as [|c w IH]; [reflexivity|].
  cbn [PyStr.has_char split]. intros H. apply orb_false_iff in H as [Hc Hw].
  rewrite Ascii.eqb_sym, Hc, (IH Hw). reflexivity.
Qed.

Lemma split_line_then (sep : ascii) (w rest : string) :
  PyStr.has_char sep w = false ->
  split sep (w ++ String sep rest) = w :: split sep rest.
Proof.
  induction w as [|c w IH]; cbn [PyStr.has_char append split].
  - intros _. now rewrite Ascii.eqb_refl.
  - intros H. apply orb_false_iff in H as [Hc Hw].
    rewrite Ascii.eqb_sym, Hc, (IH Hw). reflexivity.
Qed.

Lemma join_cons (w w' : string) (rest : list string) :
  join AI.newline (w :: w' :: rest)
  = w ++ String AI.LF (join AI.newline (w' :: rest)).
Proof. reflexivity. Qed.

Lemma split_join (ws : list string) :
  ws <> [] ->
  Forall (fun w => PyStr.has_char AI.LF w = false) ws ->
  split AI.LF (join AI.newline ws) = ws /\
  split AI.LF (join AI.newline ws ++ AI.newline) = (ws ++ [""])%list.
Proof.
  induction ws as [|w ws IH]; [congruence|]. intros _ H.
  inversion H as [|? ? Hw Hws]; subst.
  destruct ws as [|w' ws].
  - cbn [join app]. split; [now apply split_line|].
    unfold AI.newline. now rewrite split_line_then.
  - rewrite join_cons. destruct (IH ltac:(discriminate) Hws) as [IH1 IH2].
    split.
    + now rewrite split_line_then, IH1.
    + rewrite append_assoc.
      change (String AI.LF (join AI.newline (w' :: ws)) ++ AI.newline)
        with (String AI.LF (join AI.newline (w' :: ws) ++ AI.newline)).
      now rewrite split_line_then, IH2.
Qed.

Lemma plain_spec (w : string) :
  plain w = true <->
  PyStr.nonempty w = true /\ PyStr.strip w = w /\ PyStr.has_char AI.LF w = false.
Proof.
  unfold plain. rewrite !andb_true_iff, String.eqb_eq, negb_true_iff. tauto.
Qed.

Lemma keep_plain (ws : list string) :
  Forall (fun w => plain w = true) ws ->
  map PyStr.strip (filter (fun line => PyStr.nonempty (PyStr.strip line)) ws) = ws.
Proof.
  induction 1 as [|w ws Hw _ IH]; [reflexivity|].
  apply plain_spec in Hw as (Hn & Hs & _).
  cbn [filter]. rewrite Hs, Hn. cbn [map]. now rewrite Hs, IH.
Qed.

End WakeWordsFacts.

(** X14.  Whatever stands in the text field of the settings dialog, the
    wake words saved from it are non-empty, have no white space at their
    ends and hold no line break: the dialog cannot save the empty wake
    phrase, which would match every utterance. *)
Theorem parse_plain (content : string) :
  Forall (fun w => WakeWords.plain w = true) (WakeWords.parse content).
Proof.
  unfold WakeWords.parse.
  pose proof (split_pieces AI.LF content) as H.
  induction H as [|piece pieces Hp _ IH]; [constructor|].
  cbn [filter]. destruct (PyStr.nonempty (PyStr.strip piece)) eqn:En; [|exact IH].
  cbn [map]. constructor; [|exact IH].
  apply plain_spec. split; [exact En|]. split; [apply strip_idem|].
  now apply has_char_strip.
Qed.

(** X15.  Wake words that are non-empty, stripped and free of line breaks
    come back unchanged when the dialog shows them, one per line, and
    saves what it shows, with or without a line break at the end. *)
Theorem parse_display (wake_words : list string) :
  Forall (fun w => WakeWords.plain w = true) wake_words ->
  WakeWords.parse (WakeWords.display wake_words) = wake_words /\
  WakeWords.parse (WakeWords.display wake_words ++ AI.newline) = wake_words.
Proof.
  intros H. unfold WakeWords.parse, WakeWords.display.
  destruct wake_words as [|w ws]; [split; reflexivity|].
  assert (Hl : Forall (fun w => PyStr.has_char AI.LF w = false) (w :: ws)).
  { eapply Forall_impl; [|exact H]. intros x Hx. now apply plain_spec in Hx. }
  destruct (split_join (w :: ws) ltac:(discriminate) Hl) as [-> ->].
  split; [now apply keep_plain|].
  rewrite filter_app, map_app, (keep_plain _ H). apply app_nil_r.
Qed.

Lemma parse_display_witness :
  WakeWords.parse
    (WakeWords.display ["survival assistant"; "emergency help"; "assistant"; "help me"])
  = ["survival assistant"; "emergency help"; "assistant"; "help me"].
Proof.
  apply (parse_display ["survival assistant"; "emergency help"; "assistant"; "help me"]).
  repeat constructor.
Defined.

(** ** More on the configuration *)

Section MergeMore.

Import Config.

Lemma lookup_set_keeps (key k : string) (v : json) (d : dict) :
  lookup key d <> None -> lookup key (set k v d) <> None.
Proof.
  intros H. destruct (String.eqb key k) eqn:E.
  - apply String.eqb_eq in E; subst k. now rewrite lookup_set_same.
  - now rewrite lookup_set_other.
Qed.

Lemma lookup_update_item_keeps (key k : string) (v : json) (d : dict) :
  lookup key d <> None -> lookup key (update_item d k v) <> None.
Proof.
  intros H. unfold update_item.
  destruct (lookup k d) as [[]|]; destruct v; now apply lookup_set_keeps.
Qed.

Lemma lookup_deep_update_keeps (key : string) (update : dict) :
  forall base, lookup key base <> None ->
               lookup key (deep_update base update) <> None.
Proof.
  induction update as [|[k v] update IH]; intros base H; [exact H|].
  rewrite deep_update_cons. apply IH. now apply lookup_update_item_keeps.
Qed.

End MergeMore.

(** X16.  Whatever the configuration file holds, be it unreadable, not an
    object, or an object with any keys, the configuration that
    [load_config] returns has every top-level key of the defaults. *)
Theorem load_config_keeps_keys (defaults : Config.dict) (file : option Config.json)
    (key : string) :
  Config.lookup key defaults <> None ->
  Config.lookup key (Config.load_config defaults file) <> None.
Proof.
  intros H. unfold Config.load_config, Config.validate_config.
  destruct file as [[| | | | |update]|]; try exact H.
  now apply lookup_deep_update_keeps.
Qed.

Lemma load_config_keeps_keys_witness :
  Config.lookup "audio_settings"
    (Config.load_config Config.DEFAULT_CONFIG
       (Some (Config.JObj Config.sample_user_config))) <> None.
Proof.
  apply (load_config_keeps_keys Config.DEFAULT_CONFIG
           (Some (Config.JObj Config.sample_user_config)) "audio_settings").
  discriminate.
Defined.

Section MergeTwice.

Import Config.

Lemma set_same (key : string) (value : json) (d : dict) :
  lookup key d = Some value -> set key value d = d.
Proof.
  induction d as [|[k v] d IH]; cbn [lookup set]; [discriminate|].
  destruct (String.eqb key k) eqn:E.
  - now intros [= ->].
  - intros H. now rewrite IH.
Qed.

Lemma in_lookup (key : string) (value : json) (d : dict) :
  distinct (map fst d) = true -> In (key, value) d -> lookup key d = Some value.
Proof.
  induction d as [|[k v] d IH]; [intros _ []|].
  cbn [map fst distinct lookup In]. intros Hd.
  apply andb_true_iff in Hd as [Hk Hd]. apply negb_true_iff in Hk.
  intros [[= -> ->]|Hin].
  - now rewrite String.eqb_refl.
  - destruct (String.eqb key k) eqn:E; [|now apply IH].
    apply String.eqb_eq in E; subst k. exfalso.
    assert (Hex : existsb (String.eqb key) (map fst d) = true).
    { apply existsb_exists. exists key. split; [|apply String.eqb_refl].
      apply (in_map fst) in Hin. exact Hin. }
    congruence.
Qed.

Lemma in_size (key : string) (value : json) (items : dict) :
  In (key, value) items -> size value < size (JObj items).
Proof.
  cbn [size]. induction items as [|[k v] items IH]; [intros []|].
  intros [[= -> ->]|Hin]; [lia|]. specialize (IH Hin). lia.
Qed.

(** A merge that finds every item of [update] already in place changes
    nothing. *)
Lemma deep_update_fixed (base update : dict) :
  (forall key value, In (key, value) update -> update_item base key value = base) ->
  deep_update base update = base.
Proof.
  induction update as [|[k v] update IH]; intros H; [reflexivity|].
  rewrite deep_update_cons, (H k v) by now left.
  apply IH. intros key value Hin. apply H. now right.
Qed.

Lemma deep_update_self_bounded (n : nat) :
  forall items, size (JObj items) <= n -> wf (JObj items) = true ->
                deep_update items items = items.
Proof.
  induction n as [|n IH]; intros items Hn Hwf; [cbn [size] in Hn; lia|].
  apply deep_update_fixed. intros key value Hin.
  assert (Hd : distinct (map fst items) = true).
  { cbn [wf] in Hwf. now apply andb_true_iff in Hwf as [Hd _]. }
  pose proof (in_lookup key value items Hd Hin) as Hl.
  destruct (wf_items items key value Hwf Hl) as [_ Hv].
  pose proof (in_size key value items Hin) as Hs.
  unfold update_item. rewrite Hl.
  destruct value as [| | | | |inner]; try now apply set_same.
  rewrite (IH inner) by (auto; lia). now apply set_same.
Qed.

Lemma deep_update_twice_bounded (n : nat) :
  forall base update, size (JObj update) <= n -> wf (JObj update) = true ->
    deep_update (deep_update base update) update = deep_update base update.
Proof.
  induction n as [|n IH]; intros base update Hn Hwf; [cbn [size] in Hn; lia|].
  apply deep_update_fixed. intros key value Hin.
  assert (Hd : distinct (map fst update) = true).
  { cbn [wf] in Hwf. now apply andb_true_iff in Hwf as [Hd _]. }
  pose proof (in_lookup key value update Hd Hin) as Hl.
  destruct (wf_items update key value Hwf Hl) as [_ Hv].
  pose proof (in_size key value update Hin) as Hs.
  pose proof (lookup_deep_update update Hd base key) as Hr. rewrite Hl in Hr.
  unfold update_item. rewrite Hr. unfold merged.
  destruct (lookup key base) as [[| | | | |nested]|];
    destruct value as [| | | | |inner];
    try (apply set_same; rewrite Hr; reflexivity).
  - rewrite (deep_update_self_bounded (size (JObj inner)) inner) by auto.
    apply set_same. rewrite Hr. reflexivity.
  - rewrite (deep_update_self_bounded (size (JObj inner)) inner) by auto.
    apply set_same. rewrite Hr. reflexivity.
  - rewrite (deep_update_self_bounded (size (JObj inner)) inner) by auto.
    apply set_same. rewrite Hr. reflexivity.
  - rewrite (deep_update_self_bounded (size (JObj inner)) inner) by auto.
    apply set_same. rewrite Hr. reflexivity.
  - rewrite (deep_update_self_bounded (size (JObj inner)) inner) by auto.
    apply set_same. rewrite Hr. reflexivity.
  - rewrite (IH nested inner) by (auto; lia).
    apply set_same. rewrite Hr. reflexivity.
  - rewrite (deep_update_self_bounded (size (JObj inner)) inner) by auto.
    apply set_same. rewrite Hr. reflexivity.
Qed.

End MergeTwice.

(** X17.  Merging the same user document a second time, into the result
    of the first merge, changes nothing: the values, the keys and their
    order stay as the first merge left them. *)
Theorem validate_config_twice (defaults : Config.dict) (update : Config.dict)
    (validated : Config.dict) :
  Config.wf (Config.JObj update) = true ->
  Config.validate_config defaults (Config.JObj update) = Some validated ->
  Config.validate_config validated (Config.JObj update) = Some validated.
Proof.
  intros Hwf. unfold Config.validate_config. intros [= <-]. f_equal.
  now apply (deep_update_twice_bounded (size (Config.JObj update))).
Qed.

Lemma validate_config_twice_witness :
  Config.validate_config
    (Config.deep_update Config.DEFAULT_CONFIG Config.sample_user_config)
    (Config.JObj Config.sample_user_config)
  = Some (Config.deep_update Config.DEFAULT_CONFIG Config.sample_user_config).
Proof.
  apply (validate_config_twice Config.DEFAULT_CONFIG Config.sample_user_config);
    reflexivity.
Defined.

(** ** Cleaning of plain text *)

Section PlainText.

Import PyStr.

Lemma has_char_contains (c : ascii) (p s : string) :
  has_char c s = false -> contains (String c p) s = false.
Proof.
  induction s as [|a s IH]; [reflexivity|].
  cbn [has_char]. intros H. apply orb_false_iff in H as [Hc Hs].
  rewrite contains_unfold. cbn [startswith]. now rewrite Hc, IH.
Qed.

End PlainText.

(** X18.  A completion without markup, line breaks, doubled periods and
    doubled spaces is returned as it is, its ends trimmed. *)
Theorem clean_response_plain (text : string) :
  PyStr.has_char "*" text = false ->
  PyStr.has_char "#" text = false ->
  PyStr.contains "```" text = false ->
  PyStr.has_char AI.LF text = false ->
  PyStr.contains ".." text = false ->
  PyStr.contains "  " text = false ->
  AI.clean_response text = PyStr.strip text.
Proof.
  intros Hstar Hhash Hfence Hnl Hdots Hblanks.
  unfold AI.clean_response, AI.collapse_spaces, AI.collapse_periods,
    AI.join_lines, AI.strip_markup.
  rewrite (replace_absent "**" "" text) by
    (try discriminate; now apply has_char_contains).
  rewrite (replace_absent "*" "" text) by
    (try discriminate; now apply has_char_contains).
  rewrite (replace_absent "#" "" text) by
    (try discriminate; now apply has_char_contains).
  rewrite (replace_absent "```" "" text) by (try discriminate; assumption).
  rewrite (replace_absent (AI.newline ++ AI.newline) ". " text) by
    (try discriminate; now apply has_char_contains).
  rewrite (replace_absent AI.newline ". " text) by
    (try discriminate; now apply has_char_contains).
  rewrite (replace_absent ".." "." text) by (try discriminate; assumption).
  rewrite (replace_absent "  " " " text) by (try discriminate; assumption).
  reflexivity.
Qed.

Lemma clean_response_plain_witness :
  AI.clean_response " Boil the water. Then filter it. "
  = PyStr.strip " Boil the water. Then filter it. ".
Proof.
  apply (clean_response_plain " Boil the water. Then filter it. "); reflexivity.
Defined.

(** ** What reaches the speech engine and the router *)

Section Delivered.

Lemma clean_response_speakable (text : string) :
  speakable (AI.clean_response text) = true.
Proof.
  unfold speakable.
  pose proof (clean_response_no_star text) as H1.
  pose proof (clean_response_no_hash text) as H2.
  pose proof (clean_response_no_fence text) as H3.
  pose proof (clean_response_no_newline text) as H4.
  cbv zeta in *. now rewrite H1, H2, H3, H4.
Qed.

Lemma first_answer_cleaned (replies : nat -> AI.reply) (todo : list nat) (r : string) :
  Outcome.first_answer replies todo = Some r ->
  exists text, r = AI.clean_response text.
Proof.
  induction todo as [|k todo IH]; cbn [Outcome.first_answer]; [discriminate|].
  destruct (Outcome.answer (replies k)) as [t|] eqn:Ea.
  - intros [= <-]. unfold Outcome.answer in Ea.
    destruct (replies k) as [| |code [|response]]; try discriminate.
    destruct ((code =? 200)%Z && _); [|discriminate].
    injection Ea as <-. eauto.
  - destruct (Outcome.soft (replies k)); [exact IH | discriminate].
Qed.

Lemma listen_loop_from_final (start timeout : Q) (callback : bool)
    (passes : list Audio.pass) :
  forall st e s st',
    Audio.silence_start st = None ->
    Audio.listen_loop start timeout callback st passes = Some (e, Some s, st') ->
    from_final passes s \/ s = PyStr.lower (Audio.result_text st).
Proof.
  induction passes as [|p passes IH]; intros st e s st' Hs;
    cbn [Audio.listen_loop]; [discriminate|].
  assert (Hmore : forall x, from_final passes x -> from_final (p :: passes) x).
  { intros x (q & text & now & Hin & Hh & Hx). exists q, text, now.
    split; [now right | auto]. }
  destruct (Audio.Qltb (Audio.at_loop p - start) timeout).
  - destruct (Audio.heard p) as [|text now|current now_mark now_check] eqn:Eh.
    + intros H. destruct (IH _ _ _ _ Hs H); auto.
    + assert (Hhere : from_final (p :: passes) (PyStr.lower (PyStr.strip text))).
      { exists p, text, now. split; [now left | auto]. }
      match goal with |- context [if ?c then _ else _] => destruct c end.
      * intros [= <- <- <-]. now left.
      * intros H. apply IH in H; [|exact Hs].
        destruct H as [H| ->]; [auto | now left].
    + pose proof (note_partial_silence callback current now_mark st Hs) as Hs1.
      rewrite (silence_running_none _ Hs1).
      intros H. apply IH in H; [|exact Hs1].
      rewrite note_partial_result_text in H. destruct H; auto.
  - destruct (PyStr.nonempty (Audio.result_text st)); [|discriminate].
    intros [= <- <- <-]. now right.
Qed.

End Delivered.

(** X19.  Whatever the worker of a command utters, a completion or an
    apology, holds no [*], no [#], no code fence and no line break. *)
Theorem process_in_thread_speakable (command : string) (emergency : bool)
    (replies : nat -> AI.reply) (st : Router.flags) (text : string) :
  In (Router.Speak text)
     (snd (Router.process_in_thread command emergency replies st)) ->
  speakable text = true.
Proof.
  unfold Router.process_in_thread.
  pose proof (attempts_first_answer command emergency replies (seq 0 AI.max_retries))
    as Hf.
  unfold AI.generate_response.
  destruct (AI.attempts command emergency replies (seq 0 AI.max_retries))
    as [response request].
  cbn [fst snd In] in *.
  intros [H|[H|[H|[H|[]]]]]; try discriminate. injection H as <-.
  destruct response as [r|]; cbn [PyStr.truthy].
  - destruct (PyStr.nonempty r).
    + symmetry in Hf. destruct (first_answer_cleaned _ _ _ Hf) as [t ->].
      apply clean_response_speakable.
    + now destruct emergency.
  - now destruct emergency.
Qed.

Lemma process_in_thread_speakable_witness :
  speakable "Step 1. - Boil water" = true.
Proof.
  apply (process_in_thread_speakable "water" false
           (fun _ => AI.Response 200
                       (AI.Body (Some ("**Step 1**" ++ AI.newline ++ "- Boil water"))))
           Router.idle "Step 1. - Boil water").
  right. right. left. reflexivity.
Defined.

(** X20.  Every text that [listen] returns is the stripped, lower-cased
    text of a final result of the recogniser heard during the call; a
    partial transcription is never returned. *)
Theorem listen_returns_finals (stream_active : bool) (start timeout : Q)
    (callback : bool) (passes : list Audio.pass)
    (e : Audio.exit) (s : string) (st : Audio.locals) :
  Audio.listen stream_active start timeout callback passes = Some (e, Some s, st) ->
  from_final passes s.
Proof.
  intros H. unfold Audio.listen in H. destruct stream_active; cbn [negb] in H; [|discriminate].
  pose proof (listen_loop_value start timeout callback passes Audio.initial
                (conj eq_refl eq_refl) e s st H) as (Hn & _).
  apply listen_loop_from_final in H; [|reflexivity].
  destruct H as [H| ->]; [exact H | discriminate].
Qed.

Lemma listen_returns_finals_witness :
  from_final [Audio.partial_at 1 "fire"; Audio.final_at 3 " Fire in the tent "]
    "fire in the tent".
Proof.
  apply (listen_returns_finals true 0 (5 # 1) true
           [Audio.partial_at 1 "fire"; Audio.final_at 3 " Fire in the tent "]
           Audio.ByFinal "fire in the tent"
           {| Audio.result_text := "Fire in the tent"; Audio.last_partial := "fire";
              Audio.silence_start := None; Audio.shown := ["fire"] |}).
  reflexivity.
Defined.

(** X21.  For an utterance, the chain of the loop starts one worker at
    most.  It starts one exactly when no command is in flight at the
    moment [process_command] looks, and the utterance holds an emergency
    word or a question word, or a wake phrase whose follow-up is heard.
    The urgency flag of that worker is set for a wake phrase and for an
    emergency word and not for a question word; its command is the
    utterance itself, or after a wake phrase the follow-up. *)
Theorem dispatch_starts_worker (config : Router.settings) (said : string)
    (follow_up : option string) (st : Router.flags) :
  let evs := snd (fst (Router.dispatch config said follow_up st)) in
  Threads.started evs <= 1 /\
  (Threads.started evs = 1 <->
   Router.is_processing st = false /\
   match Router.classify (Router.wake_words config) said with
   | Router.WakeWord => PyStr.truthy follow_up = true
   | Router.Emergency | Router.Question => True
   | _ => False
   end) /\
  (forall command emergency,
     In (Router.StartWorker command emergency) evs ->
     match Router.classify (Router.wake_words config) said with
     | Router.WakeWord => emergency = true /\ follow_up = Some command
     | Router.Emergency => emergency = true /\ command = said
     | Router.Question => emergency = false /\ command = said
     | _ => False
     end).
Proof.
  cbv zeta. unfold Router.dispatch, Router.handle_wake_word_activation,
    Router.process_command, Router.shutdown_on_loop_thread.
  destruct (Router.classify (Router.wake_words config) said);
    [destruct follow_up as [f|]; [destruct (PyStr.nonempty f) eqn:Ef|] | | | |];
    destruct (Router.is_processing st); cbn; rewrite ?Ef;
    (split; [lia|]); (split; [intuition (discriminate || congruence || lia)|]);
    intros command emergency H;
    repeat match goal with
           | H : _ \/ _ |- _ => destruct H
           | H : False |- _ => destruct H
           | H : Router.StartWorker _ _ = Router.StartWorker _ _ |- _ =>
               injection H as <- <-
           end;
    try discriminate; auto.
Qed.
